(** * PackageRadar (package-pilot): import extraction, project walk,
      usage aggregation and registry metadata

    A shallow embedding of [src/extension.ts].  JavaScript strings are
    sequences of UTF-16 code units; plain objects used as lookup tables
    are finite maps; objects whose key order is observed, and [Set]s, are
    insertion-ordered lists; code that may throw returns an [outcome]. *)

From Stdlib Require Import Strings.String Strings.Ascii NArith.
From stdpp Require Import gmap list fin_maps.

Local Open Scope N_scope.
Set Warnings "-register-all".

(** ** JavaScript strings *)

Abbreviation jsstring := (list N).

(** The code units of an ASCII literal. *)
Definition str (s : string) : jsstring :=
  N_of_ascii <$> list_ascii_of_string s.

Definition dquote : N := 34.   (* the character U+0022 *)
Definition squote : N := 39.   (* the character U+0027 *)
Definition slash  : N := 47.
Definition dot    : N := 46.

(** [s.startsWith(p)] and [s.endsWith(p)]. *)
Fixpoint startsWith (p s : jsstring) : bool :=
  match p, s with
  | [], _ => true
  | _ :: _, [] => false
  | a :: p', b :: s' => if decide (a = b) then startsWith p' s' else false
  end.

Definition endsWith (p s : jsstring) : bool :=
  startsWith (reverse p) (reverse s).

(** [s.split(sep)] for a separator of one code unit. *)
Fixpoint split (sep : N) (s : jsstring) : list jsstring :=
  match s with
  | [] => [[]]
  | c :: s' =>
      if decide (c = sep) then [] :: split sep s'
      else match split sep s' with
           | seg :: segs => (c :: seg) :: segs
           | [] => [[c]]
           end
  end.

(** ** Outcomes of code that may throw *)

Inductive outcome (A : Type) : Type :=
  | Returned (a : A)
  | Thrown (message : jsstring).
Arguments Returned {A} a.
Arguments Thrown {A} message.

Definition obind {A B} (o : outcome A) (k : A → outcome B) : outcome B :=
  match o with
  | Returned a => k a
  | Thrown e => Thrown e
  end.

(** [array.forEach] with a callback that may throw. *)
Fixpoint forEach {A B} (f : A → B → outcome A) (a : A) (l : list B)
  : outcome A :=
  match l with
  | [] => Returned a
  | b :: l' => obind (f a b) (λ a', forEach f a' l')
  end.

(** ** The regular expressions of the extractor

    Every pattern of [analyzeFileImports] is a sequence of character
    classes, each taken once or under a greedy [+], with one capture
    group.  The matcher below is the backtracking matcher of the
    language restricted to such patterns. *)

Module Regex.

Inductive cclass : Type :=
  | Lit (c : N)                (* a literal character *)
  | OneOf (cs : list N)        (* [...]  *)
  | NoneOf (cs : list N)       (* [^...] *)
  | AnyChar.                   (* .      *)

(** [.] excludes the line terminators LF, CR, U+2028 and U+2029. *)
Definition lineTerminators : list N := [10; 13; 8232; 8233].

Definition accepts (k : cclass) (c : N) : bool :=
  match k with
  | Lit d => bool_decide (c = d)
  | OneOf cs => bool_decide (c ∈ cs)
  | NoneOf cs => bool_decide (c ∉ cs)
  | AnyChar => bool_decide (c ∉ lineTerminators)
  end.

Inductive quant : Type := Once | Plus.

(** [grp] marks the atoms inside capture group 1. *)
Record atom : Type := Atom { cls : cclass; rep : quant; grp : bool }.

Definition regex : Type := list atom.

Definition lit (s : string) : regex :=
  (λ c, Atom (Lit c) Once false) <$> str s.

(** A match: the matched text and the text of group 1. *)
Definition result : Type := jsstring * jsstring.

Definition consume (a : atom) (c : N) (r : result) : result :=
  (c :: r.1, if grp a then c :: r.2 else r.2).

(** Match [re] at the start of [s]; a [+] takes as many characters as
    it can and gives them back one at a time when the rest fails. *)
Fixpoint matchHere (re : regex) (s : jsstring) : option result :=
  match re with
  | [] => Some ([], [])
  | a :: re' =>
      match rep a with
      | Once =>
          match s with
          | c :: s' =>
              if accepts (cls a) c then consume a c <$> matchHere re' s'
              else None
          | [] => None
          end
      | Plus =>
          (fix more (s : jsstring) : option result :=
             match s with
             | c :: s' =>
                 if accepts (cls a) c then
                   match more s' with
                   | Some r => Some (consume a c r)
                   | None => consume a c <$> matchHere re' s'
                   end
                 else None
             | [] => None
             end) s
      end
  end.

(** [re.exec(s)] with [lastIndex = 0]: the leftmost match, or [null]. *)
Fixpoint exec (re : regex) (s : jsstring) : option result :=
  match matchHere re s with
  | Some r => Some r
  | None =>
      match s with
      | [] => None
      | _ :: s' => exec re s'
      end
  end.

(** [s.match(re)] for a global [re]: the texts of the successive
    leftmost matches, each search resuming where the previous match
    ended ([null] is the empty list).  [skip] counts the characters of
    the current match still to be passed over. *)
Fixpoint matchAllFrom (re : regex) (skip : nat) (s : jsstring)
  : list jsstring :=
  match s with
  | [] =>
      match skip, matchHere re [] with
      | O, Some r => [r.1]
      | _, _ => []
      end
  | _ :: s' =>
      match skip with
      | S k => matchAllFrom re k s'
      | O =>
          match matchHere re s with
          | Some r => r.1 :: matchAllFrom re (pred (length r.1)) s'
          | None => matchAllFrom re O s'
          end
      end
  end.

Definition matchAll (re : regex) (s : jsstring) : list jsstring :=
  matchAllFrom re O s.

Definition quoteChar : atom := Atom (OneOf [squote; dquote]) Once false.
Definition specifier : atom := Atom (NoneOf [squote; dquote]) Plus true.

(** The pattern literals, writing Q for the class of the two quote
    characters and S for its complement.

    [/require\(Q(S+)Q\)/] *)
Definition requireRe : regex :=
  lit "require(" ++ [quoteChar; specifier; quoteChar] ++ lit ")".

(** [/import .+ from Q(S+)Q/] *)
Definition importFromRe : regex :=
  lit "import " ++ [Atom AnyChar Plus false] ++ lit " from "
    ++ [quoteChar; specifier; quoteChar].

(** [/from Q(S+)Q/], written with the [g] flag but evaluated afresh for
    each match, so that its search starts at index 0 *)
Definition fromRe : regex :=
  lit "from " ++ [quoteChar; specifier; quoteChar].

(** [/import\(Q(S+)Q\)/] *)
Definition dynamicImportRe : regex :=
  lit "import(" ++ [quoteChar; specifier; quoteChar] ++ lit ")".

End Regex.

(** ** [analyzeFileImports] *)

(** [imports.add(x)] on a [Set]: insertion order, no duplicates. *)
Definition set_add (x : jsstring) (s : list jsstring) : list jsstring :=
  if decide (x ∈ s) then s else s ++ [x].

(** [pkg.split(slash)[0]] *)
Definition baseName (pkg : jsstring) : jsstring :=
  default [] (head (split slash pkg)).

(** The body of the three [forEach] callbacks, from [regexResult] on. *)
Definition addImport (imports : list jsstring)
    (regexResult : option Regex.result) : list jsstring :=
  match regexResult with
  | Some (_, pkg) =>
      if bool_decide (pkg ≠ []) then
        if negb (startsWith (str ".") pkg) && negb (startsWith (str "/") pkg)
        then set_add (baseName pkg) imports
        else imports
      else imports
  | None => imports
  end.

(** One detection pass: [content.match(outer)], then [inner.exec(match)]
    on each match. *)
Definition detect (outer inner : Regex.regex) (content : jsstring)
    (imports : list jsstring) : list jsstring :=
  foldl (λ imports m, addImport imports (Regex.exec inner m))
        imports (Regex.matchAll outer content).

(** The extraction from the text read, in the order of the source:
    [require] calls, [import ... from], dynamic [import()]. *)
Definition extractImports (content : jsstring) : list jsstring :=
  let imports := [] in
  let imports := detect Regex.requireRe Regex.requireRe content imports in
  let imports := detect Regex.importFromRe Regex.fromRe content imports in
  let imports :=
    detect Regex.dynamicImportRe Regex.dynamicImportRe content imports in
  imports.

(** [analyzeFileImports(filePath)]; [content] is what
    [fs.readFileSync(filePath, utf8)] does, which is outside the [try]
    of the function: a failed read is thrown to the caller. *)
Definition analyzeFileImports (content : outcome jsstring)
    : outcome (list jsstring) :=
  obind content (λ text, Returned (extractImports text)).

(** The specifiers captured by one pass, and by the three passes: the
    values of [regexResult[1]]. *)
Definition captured (outer inner : Regex.regex) (content : jsstring)
    : list jsstring :=
  omap (λ m, snd <$> Regex.exec inner m) (Regex.matchAll outer content).

Definition capturedSpecifiers (content : jsstring) : list jsstring :=
  captured Regex.requireRe Regex.requireRe content
  ++ captured Regex.importFromRe Regex.fromRe content
  ++ captured Regex.dynamicImportRe Regex.dynamicImportRe content.

(** A specifier that names a path, not a package. *)
Definition pathSpecifier (pkg : jsstring) : Prop :=
  startsWith (str ".") pkg = true ∨ startsWith (str "/") pkg = true.

Global Instance pathSpecifier_dec pkg : Decision (pathSpecifier pkg).
Proof. unfold pathSpecifier. apply _. Defined.

(** Lines of text, each ended by a line feed. *)
Definition lines (ls : list jsstring) : jsstring :=
  foldr (λ l acc, l ++ 10 :: acc) [] ls.

Definition quoted (s : string) : jsstring := [dquote] ++ str s ++ [dquote].

(** A text of three lines with one reference each. *)
Definition threeReferences : jsstring :=
  lines [ str "require(" ++ quoted "pkg" ++ str ")";
          str "import x from " ++ quoted "pkg/sub";
          str "import(" ++ quoted "@scope/pkg" ++ str ")" ].

(** A text whose references all name paths. *)
Definition pathReferences : jsstring :=
  lines [ str "const a = require('./a');";
          str "import b from '/opt/b';";
          str "const c = import('../c');" ].

(** ** Plain objects whose key order is observed

    [packageImports] is a [Record<string, string[]>] that is iterated
    ([Object.keys], [Object.values], [Object.entries]) as well as
    written.  Its keys are file paths, never array indices, so that the
    iteration order is the order in which the keys were first set. *)

Module Obj.

Abbreviation t V := (list (jsstring * V)).

(** [o[k] = v] *)
Fixpoint set {V} (k : jsstring) (v : V) (o : t V) : t V :=
  match o with
  | [] => [(k, v)]
  | (k', v') :: o' =>
      if decide (k' = k) then (k, v) :: o' else (k', v') :: set k v o'
  end.

(** [o[k]] *)
Fixpoint get {V} (k : jsstring) (o : t V) : option V :=
  match o with
  | [] => None
  | (k', v') :: o' => if decide (k' = k) then Some v' else get k o'
  end.

Definition keys {V} (o : t V) : list jsstring := o.*1.
Definition values {V} (o : t V) : list V := o.*2.
Definition entries {V} (o : t V) : list (jsstring * V) := o.

(** [Object.assign(target, source)] *)
Definition assign {V} (target source : t V) : t V :=
  foldl (λ o kv, set kv.1 kv.2 o) target (entries source).

End Obj.

(** ** [analyzeProjectStructure] *)

(** What the file system holds below a path that exists: a file, with
    what reading it does, or a directory, with what listing it does and,
    for each name listed, what [fs.statSync] does on it. *)
Inductive node : Type :=
  | FileNode (content : outcome jsstring)
  | DirNode (listing : outcome (list (jsstring * outcome node))).

Inductive structureItem : Type :=
  | DirectoryItem (name path : jsstring) (children : list structureItem)
  | FileItem (name path : jsstring).

Record ProjectAnalysis : Type := mkAnalysis {
  structure : list structureItem;
  packageImports : Obj.t (list jsstring);
  suggestedAnalysis : list jsstring
}.

Definition emptyAnalysis : ProjectAnalysis := mkAnalysis [] [] [].

(** The test on the name of a directory entry. *)
Definition keptDirectory (entry : jsstring) : bool :=
  bool_decide (entry ≠ str "node_modules")
  && bool_decide (entry ≠ str ".git")
  && negb (startsWith (str ".") entry).

(** The test on the name of any other entry. *)
Definition sourceFile (entry : jsstring) : bool :=
  endsWith (str ".js") entry || endsWith (str ".jsx") entry
  || endsWith (str ".ts") entry || endsWith (str ".tsx") entry.

(** The threshold of the deep-dive suggestion. *)
Definition suggestionThreshold : nat := 3.

(** The message of [fs.readdirSync] on a path that is not a directory. *)
Definition notADirectory (targetPath : jsstring) : jsstring :=
  str "ENOTDIR: not a directory, scandir '" ++ targetPath ++ str "'".

Section Walk.

(** [path.join], of the platform. *)
Variable pathJoin : jsstring → jsstring → jsstring.

(** The [files] array: the names that [statSync] finds not to be
    directories and that carry a source extension, in listing order,
    each with what reading it does.  A name whose [statSync] throws is
    skipped. *)
Fixpoint files (allEntries : list (jsstring * outcome node))
  : list (jsstring * outcome jsstring) :=
  match allEntries with
  | [] => []
  | (entry, Returned (FileNode content)) :: rest =>
      if sourceFile entry then (entry, content) :: files rest
      else files rest
  | _ :: rest => files rest
  end.

(** The [directories] array, each name with the directory it names. *)
Fixpoint directories (allEntries : list (jsstring * outcome node))
  : list (jsstring * node) :=
  match allEntries with
  | [] => []
  | (entry, Returned (DirNode listing)) :: rest =>
      if keptDirectory entry then (entry, DirNode listing) :: directories rest
      else directories rest
  | _ :: rest => directories rest
  end.

(** The body of [directories.forEach], given the analysis of the
    subdirectory. *)
Definition mergeDirectory (targetPath : jsstring) (acc : ProjectAnalysis)
    (dir : jsstring) (subAnalysis : ProjectAnalysis) : ProjectAnalysis :=
  let fullPath := pathJoin targetPath dir in
  {| structure :=
       structure acc ++ [DirectoryItem dir fullPath (structure subAnalysis)];
     packageImports :=
       Obj.assign (packageImports acc) (packageImports subAnalysis);
     suggestedAnalysis :=
       suggestedAnalysis acc ++ suggestedAnalysis subAnalysis |}.

(** The body of [files.forEach]. *)
Definition processFile (targetPath : jsstring) (acc : ProjectAnalysis)
    (file : jsstring * outcome jsstring) : ProjectAnalysis :=
  let fullPath := pathJoin targetPath file.1 in
  let acc :=
    {| structure := structure acc ++ [FileItem file.1 fullPath];
       packageImports := packageImports acc;
       suggestedAnalysis := suggestedAnalysis acc |} in
  match analyzeFileImports file.2 with
  | Returned imports =>
      if bool_decide (0 < length imports)%nat then
        {| structure := structure acc;
           packageImports := Obj.set fullPath imports (packageImports acc);
           suggestedAnalysis :=
             if bool_decide (suggestionThreshold < length imports)%nat
             then suggestedAnalysis acc ++ [fullPath]
             else suggestedAnalysis acc |}
      else acc
  | Thrown _ => acc               (* console.warn *)
  end.

Definition processFiles (targetPath : jsstring) (acc : ProjectAnalysis)
    (fs : list (jsstring * outcome jsstring)) : ProjectAnalysis :=
  foldl (processFile targetPath) acc fs.

(** The walk of a path that exists.  The loop over the subdirectories
    runs over the listing itself and tests each entry as [directories]
    does; an analysis that throws ends the loop and the walk. *)
Fixpoint walk (targetPath : jsstring) (n : node) : outcome ProjectAnalysis :=
  match n with
  | FileNode _ => Thrown (notADirectory targetPath)
  | DirNode (Thrown e) => Thrown e
  | DirNode (Returned allEntries) =>
      let processDirectories :=
        fix go (entries : list (jsstring * outcome node))
               (acc : ProjectAnalysis) : outcome ProjectAnalysis :=
          match entries with
          | [] => Returned acc
          | (dir, Returned sub) :: rest =>
              match sub with
              | DirNode _ =>
                  if keptDirectory dir then
                    match walk (pathJoin targetPath dir) sub with
                    | Returned subAnalysis =>
                        go rest (mergeDirectory targetPath acc dir subAnalysis)
                    | Thrown e => Thrown e
                    end
                  else go rest acc
              | FileNode _ => go rest acc
              end
          | (_, Thrown _) :: rest => go rest acc      (* console.warn *)
          end in
      obind (processDirectories allEntries emptyAnalysis)
            (λ acc, Returned (processFiles targetPath acc (files allEntries)))
  end.

(** [directories.forEach], as the source has it: over the names kept. *)
Definition processDirectories (targetPath : jsstring)
    (dirs : list (jsstring * node)) (acc : ProjectAnalysis)
    : outcome ProjectAnalysis :=
  forEach (λ acc d,
             obind (walk (pathJoin targetPath d.1) d.2)
                   (λ subAnalysis,
                      Returned (mergeDirectory targetPath acc d.1 subAnalysis)))
          acc dirs.

(** A file that the walk suggests for a closer look. *)
Definition manyImports (content : outcome jsstring) : bool :=
  match analyzeFileImports content with
  | Returned imports => bool_decide (suggestionThreshold < length imports)%nat
  | Thrown _ => false
  end.

(** [analyzeProjectStructure(targetPath)]; [root] is what the file
    system holds at [targetPath], [None] when [fs.existsSync] is false. *)
Definition analyzeProjectStructure (targetPath : jsstring)
    (root : option node) : outcome ProjectAnalysis :=
  match root with
  | None => Returned emptyAnalysis
  | Some n => walk targetPath n
  end.

End Walk.

(** ** Usage aggregation *)

(** [extractUniquePackages]: a [Set] filled in iteration order. *)
Definition extractUniquePackages (packageImports : Obj.t (list jsstring))
    : list jsstring :=
  foldl (λ uniquePackages imports,
           foldl (λ uniquePackages pkg, set_add pkg uniquePackages)
                 uniquePackages imports)
        [] (Obj.values packageImports).

(** An entry of [packageUsage]. *)
Module Usage.
Record t : Type := mk { count : nat; files : list jsstring }.
End Usage.

(** [packageUsage] is a fresh object literal used as a lookup table: for
    the names below [packageUsage[pkg]] finds the property inherited from
    [Object.prototype], which is truthy, so that no entry is created and
    [packageUsage[pkg].files.push] reads [push] from [undefined]. *)
Definition inheritedProperties : list jsstring :=
  str <$> [ "constructor"; "__proto__"; "hasOwnProperty"; "isPrototypeOf";
            "propertyIsEnumerable"; "toLocaleString"; "toString"; "valueOf";
            "__defineGetter__"; "__defineSetter__"; "__lookupGetter__";
            "__lookupSetter__" ]%string.

Definition pushOfUndefined : jsstring :=
  str "Cannot read properties of undefined (reading 'push')".

(** The body of [imports.forEach] in [generateAnalysisHTML]. *)
Definition recordUsage (file : jsstring) (packageUsage : gmap jsstring Usage.t)
    (pkg : jsstring) : outcome (gmap jsstring Usage.t) :=
  if decide (pkg ∈ inheritedProperties) then Thrown pushOfUndefined
  else
    let packageUsage :=
      match packageUsage !! pkg with
      | None => <[pkg := Usage.mk 0 []]> packageUsage
      | Some _ => packageUsage
      end in
    Returned
      (alter (λ u, Usage.mk (S (Usage.count u)) (Usage.files u ++ [file]))
             pkg packageUsage).

(** The loop over [Object.entries(analysis.packageImports)], from a
    table [packageUsage]. *)
Definition packageUsageFrom (packageUsage : gmap jsstring Usage.t)
    (packageImports : Obj.t (list jsstring)) : outcome (gmap jsstring Usage.t) :=
  forEach (λ packageUsage entry,
             forEach (recordUsage entry.1) packageUsage entry.2)
          packageUsage (Obj.entries packageImports).

(** The [packageUsage] table of [generateAnalysisHTML]: the loop from the
    empty object. *)
Definition packageUsage (packageImports : Obj.t (list jsstring))
    : outcome (gmap jsstring Usage.t) :=
  packageUsageFrom ∅ packageImports.

(** The files that use [pkg], one for each time an import list names it,
    in iteration order. *)
Definition uses (pkg : jsstring) (packageImports : Obj.t (list jsstring))
    : list jsstring :=
  Obj.entries packageImports
    ≫= λ entry, (λ _, entry.1) <$> filter (λ p, p = pkg) entry.2.

(** An entry of [packageUsage] after the files [l] were counted. *)
Definition counted (o : option Usage.t) (l : list jsstring) : option Usage.t :=
  match l with
  | [] => o
  | _ :: _ =>
      Some (Usage.mk (default 0%nat (Usage.count <$> o) + length l)
                    (default [] (Usage.files <$> o) ++ l))
  end.

(** Import lists without a name of a property of [Object.prototype]. *)
Definition plainNames (packageImports : Obj.t (list jsstring)) : Prop :=
  Forall (λ entry, Forall (λ p, p ∉ inheritedProperties) entry.2)
         packageImports.

Global Instance plainNames_dec packageImports : Decision (plainNames packageImports).
Proof. unfold plainNames. apply _. Defined.

(** ** The commands, up to the request for metadata *)

Inductive commandStep : Type :=
  | NoAction
  | ShowInformationMessage (message : jsstring)
  | ShowErrorMessage (message : jsstring)
  | FetchAndDisplay (analysis : ProjectAnalysis) (packageNames : list jsstring).

Definition noPackagesInProject : jsstring :=
  str "No npm packages found in the project".

Section Commands.

Variable pathJoin : jsstring → jsstring → jsstring.
(** [path.extname], of the platform. *)
Variable extname : jsstring → jsstring.
(** [fs.readFileSync(_, utf8)] *)
Variable readFileSync : jsstring → outcome jsstring.

(** [packageRadar.analyzeProject], from [targetPath] on. *)
Definition analyzeProjectCommand (targetPath : jsstring)
    (root : option node) : commandStep :=
  match analyzeProjectStructure pathJoin targetPath root with
  | Thrown e => ShowErrorMessage (str "Error analyzing project: " ++ e)
  | Returned analysis =>
      let uniquePackages := extractUniquePackages (packageImports analysis) in
      if bool_decide (length uniquePackages = 0%nat)
      then ShowInformationMessage noPackagesInProject
      else FetchAndDisplay analysis uniquePackages
  end.

(** [packageRadar.analyzeCurrentFile]; [activeEditor] is the path of
    the document of the active editor, if there is one. *)
Definition analyzeCurrentFileCommand (activeEditor : option jsstring)
    : commandStep :=
  match activeEditor with
  | None => ShowInformationMessage (str "No active file to analyze")
  | Some filePath =>
      if bool_decide
           (extname filePath ∉ str <$> [".js"; ".jsx"; ".ts"; ".tsx"]%string)
      then ShowInformationMessage
             (str "Current file is not a JavaScript or TypeScript file")
      else
        match analyzeFileImports (readFileSync filePath) with
        | Thrown e =>
            ShowErrorMessage (str "Error analyzing current file: " ++ e)
        | Returned imports =>
            if bool_decide (length imports = 0%nat)
            then ShowInformationMessage
                   (str "No npm packages found in the current file")
            else
              FetchAndDisplay
                {| structure := [];
                   packageImports := Obj.set filePath imports [];
                   suggestedAnalysis := [filePath] |}
                imports
        end
  end.

(** A file whose extraction produced at least one package. *)
Definition hasPackages (path : jsstring) : Prop :=
  ∃ imports, analyzeFileImports (readFileSync path) = Returned imports
             ∧ imports ≠ [].

(** The [selectedFiles.forEach] of [packageRadar.analyzeSelectedFiles]. *)
Definition scanSelected (selectedFiles : list jsstring)
    : outcome (Obj.t (list jsstring)) :=
  forEach (λ packageImports path,
             obind (analyzeFileImports (readFileSync path))
               (λ imports,
                  Returned (if bool_decide (0 < length imports)%nat
                            then Obj.set path imports packageImports
                            else packageImports)))
          [] selectedFiles.

(** [packageRadar.analyzeSelectedFiles], from the files picked on
    ([None]: the pick was dismissed). *)
Definition analyzeSelectedFilesCommand
    (selectedFiles : option (list jsstring)) : commandStep :=
  match selectedFiles with
  | None | Some [] => NoAction
  | Some selectedFiles =>
      match scanSelected selectedFiles with
      | Thrown e => ShowErrorMessage (str "Error analyzing files: " ++ e)
      | Returned packageImports =>
          let uniquePackages := extractUniquePackages packageImports in
          if bool_decide (length uniquePackages = 0%nat)
          then ShowInformationMessage
                 (str "No npm packages found in selected files")
          else
            FetchAndDisplay
              {| structure := [];
                 packageImports := packageImports;
                 suggestedAnalysis := Obj.keys packageImports |}
              uniquePackages
      end
  end.

End Commands.

(** ** [fetchNpmMetadata] *)

Module Fetch.

(** A value read from a response: [undefined], [null], or an object
    with the fields the code reads. *)
Inductive payload (A : Type) : Type :=
  | Undefined
  | Null
  | Object (a : A).
Arguments Undefined {A}.
Arguments Null {A}.
Arguments Object {A} a.

Record response (A : Type) : Type :=
  mkResponse { status : nat; data : payload A }.
Arguments mkResponse {A} status data.
Arguments status {A} r.
Arguments data {A} r.

(** The fields read from the body of the registry; [None] is a field
    that is absent.  [time] and [versionDependencies] are read at the
    latest version. *)
Record registryBody : Type := mkBody {
  distTagsLatest : option jsstring;
  bodyDescription : option jsstring;
  bodyLicense : option jsstring;
  bodyHomepage : option jsstring;
  repositoryUrl : option jsstring;
  maintainersLength : option nat;
  time : jsstring → option jsstring;
  versionDependencies : jsstring → option (Obj.t jsstring)
}.

(** The body of the download counts: its [downloads] field. *)
Definition downloadsBody : Type := option nat.

(** The object stored under a package name; [None] is a property that
    the object does not have. *)
Record packageMetadata : Type := mkMetadata {
  name : jsstring;
  description : jsstring;
  version : jsstring;
  license : option jsstring;
  homepage : option jsstring;
  repository : option jsstring;
  maintainers : option nat;
  lastPublished : option jsstring;
  dependencies : option (Obj.t jsstring);
  weeklyDownloads : option nat;
  alternatives : option (list jsstring);
  error : option jsstring
}.

(** [x || d] on a string that may be absent. *)
Definition orElse (x : option jsstring) (d : jsstring) : jsstring :=
  match x with
  | Some (c :: s) => c :: s
  | _ => d
  end.

(** The record of a successful primary request. *)
Definition fetched (packageName : jsstring) (body : registryBody)
    : packageMetadata :=
  let latestVersion := distTagsLatest body in
  let key := default (str "undefined") latestVersion in
  {| name := packageName;
     description := orElse (bodyDescription body) [];
     version := orElse latestVersion [];
     license := Some (orElse (bodyLicense body) (str "Unknown"));
     homepage := Some (orElse (bodyHomepage body) []);
     repository := Some (orElse (repositoryUrl body) []);
     maintainers := Some (default 0%nat (maintainersLength body));
     lastPublished := Some (orElse (time body key) []);
     dependencies := Some (default [] (versionDependencies body key));
     weeklyDownloads := Some 0%nat;
     alternatives := Some [];
     error := None |}.

(** The record of the [catch] branch. *)
Definition degraded (packageName message : jsstring) : packageMetadata :=
  {| name := packageName;
     description := str "Could not fetch package data";
     version := [];
     license := None; homepage := None; repository := None;
     maintainers := None; lastPublished := None; dependencies := None;
     weeklyDownloads := None; alternatives := None;
     error := Some message |}.

Definition withWeeklyDownloads (n : nat) (r : packageMetadata)
    : packageMetadata :=
  {| name := name r; description := description r; version := version r;
     license := license r; homepage := homepage r;
     repository := repository r; maintainers := maintainers r;
     lastPublished := lastPublished r; dependencies := dependencies r;
     weeklyDownloads := Some n; alternatives := alternatives r;
     error := error r |}.

Definition withAlternatives (l : list jsstring) (r : packageMetadata)
    : packageMetadata :=
  {| name := name r; description := description r; version := version r;
     license := license r; homepage := homepage r;
     repository := repository r; maintainers := maintainers r;
     lastPublished := lastPublished r; dependencies := dependencies r;
     weeklyDownloads := weeklyDownloads r; alternatives := Some l;
     error := error r |}.

(** The message of reading [dist-tags] from a body that is [undefined]
    or [null]. *)
Definition distTagsOf (what : string) : jsstring :=
  str "Cannot read properties of " ++ str what
    ++ str " (reading 'dist-tags')".

(** What the network answers to the requests of the callback of the
    [i]-th package name: [axios.get] throws or returns a response. *)
Record network : Type := mkNetwork {
  registry : nat → outcome (response registryBody);
  downloads : nat → outcome (response downloadsBody)
}.

Inductive request : Type :=
  | RegistryRequest (packageName : jsstring)
  | DownloadsRequest (packageName : jsstring).

(** Where the callback of a package name stands: at its first [await],
    at its second, or returned. *)
Inductive phase : Type := AwaitingRegistry | AwaitingDownloads | Settled.

(** The one property name of the table whose assignment does not
    create a property: [__proto__] is an accessor inherited from
    [Object.prototype], and assigning an object to it makes that object
    the prototype of the table. *)
Definition protoName : jsstring := str "__proto__".

(** The object [packageData], created as an empty object literal: its
    own properties and, once a record was assigned to [__proto__], the
    record that is its prototype ([None]: still [Object.prototype]). *)
Record table : Type := mkTable {
  own : gmap jsstring packageMetadata;
  proto : option packageMetadata
}.

Global Instance table_empty : Empty table := mkTable ∅ None.

(** The record that [packageData[k]] evaluates to, when it is one of
    the records stored: the own property [k] or, for [__proto__], the
    prototype.  For any other [k] the expression gives an inherited
    value, which is no record, or [undefined]. *)
Definition get (k : jsstring) (t : table) : option packageMetadata :=
  if decide (k = protoName) then proto t else own t !! k.

Global Instance table_lookup : Lookup jsstring packageMetadata table := get.
Global Arguments get : simpl never.
Global Arguments table_lookup : simpl never.

(** [packageData[k] = r] *)
Definition assign (k : jsstring) (r : packageMetadata) (t : table) : table :=
  if decide (k = protoName)
  then {| own := own t; proto := Some r |}
  else {| own := <[k := r]> (own t); proto := proto t |}.

(** [packageData[k].weeklyDownloads = n], run after an assignment to
    [packageData[k]] of the same callback, so that a record is there. *)
Definition assignWeeklyDownloads (k : jsstring) (n : nat) (t : table)
    : table :=
  if decide (k = protoName)
  then {| own := own t; proto := withWeeklyDownloads n <$> proto t |}
  else {| own := alter (withWeeklyDownloads n) k (own t); proto := proto t |}.

Record state : Type := mkState {
  packageData : table;
  phases : list phase;
  requests : list request
}.

(** [packageNames.map(async ...)]: every callback runs up to its first
    [await], which sends its registry request. *)
Definition start (packageNames : list jsstring) : state :=
  {| packageData := ∅;
     phases := (λ _, AwaitingRegistry) <$> packageNames;
     requests := RegistryRequest <$> packageNames |}.

Definition settle (i : nat) (pd : table) (st : state) : state :=
  {| packageData := pd;
     phases := <[i := Settled]> (phases st);
     requests := requests st |}.

(** The callback of the [i]-th name runs from the [await] it stands at
    to the next one, or to its end. *)
Definition resume (packageNames : list jsstring) (net : network)
    (st : state) (i : nat) : state :=
  match packageNames !! i, phases st !! i with
  | Some packageName, Some AwaitingRegistry =>
      match registry net i with
      | Thrown message =>
          settle i (assign packageName (degraded packageName message)
                      (packageData st)) st
      | Returned r =>
          if decide (status r = 200%nat) then
            match data r with
            | Object body =>
                {| packageData :=
                     assign packageName (fetched packageName body)
                       (packageData st);
                   phases := <[i := AwaitingDownloads]> (phases st);
                   requests := requests st ++ [DownloadsRequest packageName] |}
            | Undefined =>
                settle i (assign packageName
                            (degraded packageName (distTagsOf "undefined"))
                            (packageData st)) st
            | Null =>
                settle i (assign packageName
                            (degraded packageName (distTagsOf "null"))
                            (packageData st)) st
            end
          else settle i (packageData st) st
      end
  | Some packageName, Some AwaitingDownloads =>
      match downloads net i with
      | Thrown _ => settle i (packageData st) st       (* console.warn *)
      | Returned r =>
          if decide (status r = 200%nat) then
            match data r with
            | Object body =>
                settle i (assignWeeklyDownloads packageName
                            (default 0%nat body) (packageData st)) st
            | _ => settle i (packageData st) st        (* console.warn *)
            end
          else settle i (packageData st) st
      end
  | _, _ => st
  end.

(** The callbacks resumed in the order [schedule], the order in which
    the answers arrive. *)
Definition run (packageNames : list jsstring) (net : network)
    (schedule : list nat) : state :=
  foldl (resume packageNames net) (start packageNames) schedule.

(** The table of alternatives. *)
Definition alternativesFor (packageName : jsstring) : list jsstring :=
  if decide (packageName = str "moment")
  then str <$> ["date-fns"; "dayjs"; "luxon"]%string
  else if decide (packageName = str "lodash" ∨ packageName = str "underscore")
  then str <$> ["lodash-es"; "ramda"]%string
  else if decide (packageName = str "request")
  then str <$> ["axios"; "node-fetch"; "got"]%string
  else if decide (packageName = str "jquery")
  then str <$> ["cash-dom"; "umbrella"]%string
  else [].

(** The loop over [Object.keys(packageData)], the own keys: the
    prototype is not visited. *)
Definition recommend (pd : table) : table :=
  {| own := map_imap (λ packageName r,
                        Some (withAlternatives (alternativesFor packageName) r))
                     (own pd);
     proto := proto pd |}.

(** What the loop leaves of the record read under a name. *)
Definition recommended (packageName : jsstring) (r : packageMetadata)
    : packageMetadata :=
  if decide (packageName = protoName) then r
  else withAlternatives (alternativesFor packageName) r.

Definition allSettled (st : state) : bool :=
  forallb (λ p, match p with Settled => true | _ => false end) (phases st).

(** [fetchNpmMetadata(packageNames)]: once [Promise.all] resolves, the
    table with the alternatives; [None] while a callback is pending. *)
Definition fetchNpmMetadata (packageNames : list jsstring) (net : network)
    (schedule : list nat) : option table :=
  let st := run packageNames net schedule in
  if allSettled st then Some (recommend (packageData st)) else None.

(** What holds, at every point of the run, of a package all of whose
    registry requests throw: no request for its download counts was sent,
    and each of its callbacks is either at its first [await] or returned,
    the table then holding the degraded record of one of the failures. *)
Definition failing (packageNames : list jsstring) (net : network)
    (packageName : jsstring) (st : state) : Prop :=
  (DownloadsRequest packageName ∉ requests st)
  ∧ ∀ j, packageNames !! j = Some packageName →
      phases st !! j = Some AwaitingRegistry
      ∨ (phases st !! j = Some Settled
         ∧ ∃ k message,
             packageNames !! k = Some packageName
             ∧ registry net k = Thrown message
             ∧ packageData st !! packageName
               = Some (degraded packageName message)).



End Fetch.

(** A directory all of whose kept subdirectories, at every depth, can be
    listed. *)
Fixpoint listable (n : node) : bool :=
  match n with
  | FileNode _ => false
  | DirNode (Thrown _) => false
  | DirNode (Returned allEntries) =>
      (fix all (entries : list (jsstring * outcome node)) : bool :=
         match entries with
         | [] => true
         | (dir, Returned sub) :: rest =>
             match sub with
             | DirNode _ =>
                 (if keptDirectory dir then listable sub else true) && all rest
             | FileNode _ => all rest
             end
         | (_, Thrown _) :: rest => all rest
         end) allEntries
  end.

(** ** Sample inputs *)

(** [path.join] on a POSIX platform, for a directory path without a
    trailing slash and the name of one of its entries. *)
Definition posixJoin (dir entry : jsstring) : jsstring :=
  dir ++ [slash] ++ entry.

Definition permissionDenied : jsstring :=
  str "EACCES: permission denied, scandir '/proj/locked'".

(** A project with a source file and a subdirectory that cannot be
    listed. *)
Definition importsLodash : node :=
  FileNode (Returned (str "import x from 'lodash'")).

Definition lockedProject : node :=
  DirNode (Returned
    [ (str "locked", Returned (DirNode (Thrown permissionDenied)));
      (str "a.ts", Returned importsLodash) ]).

(** The same project without the subdirectory. *)
Definition openProject : node :=
  DirNode (Returned [ (str "a.ts", Returned importsLodash) ]).

(** The line that requires the package named p followed by the
    character [c]; texts of four and of three such lines. *)
Definition requireLine (c : N) : jsstring :=
  str "require('p" ++ [c] ++ str "')".

Definition fourPackages : jsstring :=
  lines (requireLine <$> [48; 49; 50; 51]).
Definition threePackages : jsstring :=
  lines (requireLine <$> [48; 49; 50]).

Definition busyProject : node :=
  DirNode (Returned
    [ (str "four.ts", Returned (FileNode (Returned fourPackages)));
      (str "three.ts", Returned (FileNode (Returned threePackages)));
      (str "gone.ts", Thrown (str "ENOENT: no such file or directory"));
      (str "sub", Returned (DirNode (Returned
         [ (str "deep.js", Returned (FileNode (Returned fourPackages)));
           (str "secret.js",
            Returned (FileNode (Thrown (str "EACCES: permission denied"))))
         ]))) ]).

(** Files on disk for the two file commands: two sources with one
    package each, one without any, anything else unreadable. *)
Definition smallDisk (path : jsstring) : outcome jsstring :=
  if decide (path = str "/w/one.ts")
  then Returned (str "import a from 'left-pad'")
  else if decide (path = str "/w/two.js")
  then Returned (str "require('chalk/x')")
  else if decide (path = str "/w/none.js")
  then Returned (str "let x = 1")
  else Thrown (str "ENOENT: no such file or directory").

(** [path.extname] for the paths of [smallDisk]: the text from the last
    dot on. *)
Definition lastExtension (path : jsstring) : jsstring :=
  match reverse (split dot path) with
  | ext :: _ :: _ => dot :: ext
  | _ => []
  end.

(** Two files of a project, in the two orders. *)
Definition twoFiles : Obj.t (list jsstring) :=
  [ (str "/p/a.ts", [str "lodash"; str "react"]);
    (str "/p/b.ts", [str "lodash"]) ].

Definition twoFilesSwapped : Obj.t (list jsstring) :=
  [ (str "/p/b.ts", [str "lodash"]);
    (str "/p/a.ts", [str "lodash"; str "react"]) ].

(** A batch of three packages: the registry answers for the first two
    and fails for the third; the download counts fail for the second. *)
Definition sampleBody (latest : string) : Fetch.registryBody :=
  {| Fetch.distTagsLatest := Some (str latest);
     Fetch.bodyDescription := Some (str "a library");
     Fetch.bodyLicense := None;
     Fetch.bodyHomepage := None;
     Fetch.repositoryUrl := None;
     Fetch.maintainersLength := Some 2%nat;
     Fetch.time := λ _, None;
     Fetch.versionDependencies := λ _, None |}.

Definition sampleNames : list jsstring :=
  [str "moment"; str "left-pad"; str "nosuchpkg"].

Definition notFound : jsstring := str "Request failed with status code 404".

Definition sampleNetwork : Fetch.network :=
  {| Fetch.registry := λ i,
       match i with
       | 0%nat =>
           Returned (Fetch.mkResponse 200 (Fetch.Object (sampleBody "2.30.1")))
       | 1%nat =>
           Returned (Fetch.mkResponse 200 (Fetch.Object (sampleBody "1.3.0")))
       | _ => Thrown notFound
       end;
     Fetch.downloads := λ i,
       match i with
       | 0%nat =>
           Returned (Fetch.mkResponse 200 (Fetch.Object (Some 900%nat)))
       | _ => Thrown (str "Network Error")
       end |}.

(** The answers arrive out of order. *)
Definition sampleSchedule : list nat := [2; 0; 1; 1; 0]%nat.

(** A batch with the name that the text require('__proto__') yields:
    the registry answers for moment and fails for __proto__, which names
    no package. *)
Definition protoNames : list jsstring := [str "moment"; Fetch.protoName].

Definition protoNetwork : Fetch.network :=
  {| Fetch.registry := λ i,
       match i with
       | 0%nat =>
           Returned (Fetch.mkResponse 200 (Fetch.Object (sampleBody "2.30.1")))
       | _ => Thrown notFound
       end;
     Fetch.downloads := λ _,
       Returned (Fetch.mkResponse 200 (Fetch.Object (Some 900%nat))) |}.

Definition protoSchedule : list nat := [1; 0; 0]%nat.

(** ** Further notions used by the properties *)

(** One of the two quote characters of the patterns. *)
Definition isQuote (c : N) : Prop := c = squote ∨ c = dquote.

(** A well-formed path segment of the registry: not empty, without slash
    or quote, not starting with a dot. *)
Definition registryName (p : jsstring) : Prop :=
  p ≠ [] ∧ (slash ∉ p) ∧ (squote ∉ p) ∧ (dquote ∉ p)
  ∧ startsWith (str ".") p = false.

(** An entry of a listing that the partition leaves out: it cannot be
    examined, or it is a directory that is not kept, or a file without a
    source extension. *)
Definition ignoredEntry (entry : jsstring * outcome node) : bool :=
  match entry.2 with
  | Thrown _ => true
  | Returned (DirNode _) => negb (keptDirectory entry.1)
  | Returned (FileNode _) => negb (sourceFile entry.1)
  end.

(** What the walk keeps of the analysis it builds: the keys of the
    imports map are distinct, every list recorded is a non-empty
    extraction, every suggested file is a key. *)
Definition wellRecorded (analysis : ProjectAnalysis) : Prop :=
  NoDup (Obj.keys (packageImports analysis))
  ∧ Forall (λ entry, entry.2 ≠ [] ∧ ∃ text, entry.2 = extractImports text)
           (packageImports analysis)
  ∧ ∀ f, f ∈ suggestedAnalysis analysis
         → f ∈ Obj.keys (packageImports analysis).


Module FetchNotions.
Import Fetch.

(** The body with which the registry answers the request of the [i]-th
    callback, when it answers 200 with one. *)
Definition answered (net : network) (i : nat) : option registryBody :=
  match registry net i with
  | Returned r =>
      if decide (status r = 200%nat) then
        match data r with Object body => Some body | _ => None end
      else None
  | Thrown _ => None
  end.

(** The weekly downloads that the second request of the [i]-th callback
    stores, when it stores any. *)
Definition countedDownloads (net : network) (i : nat) : option nat :=
  match downloads net i with
  | Returned r =>
      if decide (status r = 200%nat) then
        match data r with
        | Object body => Some (default 0%nat body)
        | _ => None
        end
      else None
  | Thrown _ => None
  end.

(** What the callback of the [i]-th name has stored under its name by
    the time it returns, run on its own: nothing, the degraded record, or
    the fetched record, with the download count when that was stored. *)
Definition settledRecord (net : network) (i : nat) (packageName : jsstring)
    : option packageMetadata :=
  match registry net i with
  | Thrown message => Some (degraded packageName message)
  | Returned r =>
      if decide (status r = 200%nat) then
        match data r with
        | Object body =>
            Some (match countedDownloads net i with
                  | Some n => withWeeklyDownloads n (fetched packageName body)
                  | None => fetched packageName body
                  end)
        | Undefined => Some (degraded packageName (distTagsOf "undefined"))
        | Null => Some (degraded packageName (distTagsOf "null"))
        end
      else None
  end.

(** Where the callback of the [i]-th name stands and what the table
    holds for its name, at every point of a run in which no other callback
    has that name. *)
Definition progress (net : network) (i : nat) (packageName : jsstring)
    (st : state) : Prop :=
  (phases st !! i = Some AwaitingRegistry
   ∧ packageData st !! packageName = None)
  ∨ (phases st !! i = Some AwaitingDownloads
     ∧ ∃ body, answered net i = Some body
               ∧ packageData st !! packageName
                 = Some (fetched packageName body))
  ∨ (phases st !! i = Some Settled
     ∧ packageData st !! packageName = settledRecord net i packageName).

End FetchNotions.

(** A registry that answers 204 without a body. *)
Definition noContentNetwork : Fetch.network :=
  {| Fetch.registry := λ _, Returned (Fetch.mkResponse 204 Fetch.Undefined);
     Fetch.downloads := λ _, Thrown (str "Network Error") |}.

(** ** The files a walk comes to *)

Section Scanned.

Variable pathJoin : jsstring → jsstring → jsstring.

(** The source files that the walk of a path comes to, each with its
    full path and what reading it does, in the order of the walk: those
    of the subdirectories kept, then the directory's own. *)
Fixpoint scanned (targetPath : jsstring) (n : node)
  : list (jsstring * outcome jsstring) :=
  match n with
  | FileNode _ => []
  | DirNode (Thrown _) => []
  | DirNode (Returned allEntries) =>
      (fix go (entries : list (jsstring * outcome node))
         : list (jsstring * outcome jsstring) :=
         match entries with
         | [] => []
         | (dir, Returned sub) :: rest =>
             match sub with
             | DirNode _ =>
                 (if keptDirectory dir
                  then scanned (pathJoin targetPath dir) sub else [])
                 ++ go rest
             | FileNode _ => go rest
             end
         | (_, Thrown _) :: rest => go rest
         end) allEntries
      ++ ((λ file, (pathJoin targetPath file.1, file.2)) <$> files allEntries)
  end.

End Scanned.

(** A file read with at least one package. *)
Definition withPackages (content : outcome jsstring) : Prop :=
  ∃ imports, analyzeFileImports content = Returned imports ∧ imports ≠ [].


(** * Properties *)

(** ** The extractor *)

Lemma split_head_nonempty sep c s :
  c ≠ sep → ∃ d seg, head (split sep (c :: s)) = Some (d :: seg).
Proof.
  intros Hc. simpl. destruct (decide (c = sep)) as [|_]; [done|].
  destruct (split sep s) as [|seg segs]; eauto.
Qed.

Lemma split_head_no_sep sep s seg :
  head (split sep s) = Some seg → sep ∉ seg.
Proof.
  revert seg. induction s as [|c s IH]; intros seg; simpl.
  - intros [= <-]. by apply not_elem_of_nil.
  - destruct (decide (c = sep)) as [->|Hc].
    + intros [= <-]. by apply not_elem_of_nil.
    + destruct (split sep s) as [|seg' segs] eqn:E; intros [= <-].
      * rewrite list_elem_of_singleton. congruence.
      * rewrite elem_of_cons. intros [?|?]; [congruence|].
        by apply (IH seg').
Qed.

Lemma baseName_nonempty pkg :
  pkg ≠ [] → startsWith (str "/") pkg = false → baseName pkg ≠ [].
Proof.
  destruct pkg as [|c s]; [done|]. intros _ Hs. unfold baseName.
  destruct (split_head_nonempty slash c s) as (d & seg & ->); [|done].
  intros ->. by vm_compute in Hs.
Qed.

Lemma baseName_no_slash pkg : slash ∉ baseName pkg.
Proof.
  unfold baseName. destruct (head (split slash pkg)) as [seg|] eqn:E; simpl.
  - by eapply split_head_no_sep.
  - by apply not_elem_of_nil.
Qed.

Lemma set_add_NoDup x s : NoDup s → NoDup (set_add x s).
Proof.
  intros Hs. unfold set_add. destruct (decide (x ∈ s)); [done|].
  apply NoDup_app. split_and!; [done| |apply NoDup_singleton].
  intros y Hy. rewrite list_elem_of_singleton. by intros ->.
Qed.

Lemma elem_of_set_add y x s : y ∈ set_add x s ↔ y = x ∨ y ∈ s.
Proof.
  unfold set_add. destruct (decide (x ∈ s)).
  - split; [by right|]. by intros [->|?].
  - rewrite elem_of_app, list_elem_of_singleton. tauto.
Qed.

(** A property of the set that every [add] of a package name keeps is
    kept by a pass. *)
Lemma detect_invariant (P : list jsstring → Prop) outer inner content imports :
  (∀ pkg s, pkg ∈ captured outer inner content → pkg ≠ [] →
            ¬ pathSpecifier pkg → P s → P (set_add (baseName pkg) s)) →
  P imports → P (detect outer inner content imports).
Proof.
  unfold detect, captured.
  generalize (Regex.matchAll outer content) as ms.
  intros ms. revert imports.
  induction ms as [|m ms IH]; intros imports Hadd HP; simpl; [done|].
  apply IH.
  - intros pkg s Hin. apply Hadd. simpl.
    destruct (Regex.exec inner m); simpl; [by right|done].
  - unfold addImport.
    destruct (Regex.exec inner m) as [[whole pkg]|] eqn:E; [|done].
    case_bool_decide as Hne; [|done].
    destruct (startsWith (str ".") pkg) eqn:E1; [done|].
    destruct (startsWith (str "/") pkg) eqn:E2; [done|]. simpl.
    apply Hadd; [|done| |done].
    + simpl. rewrite E. simpl. by left.
    + unfold pathSpecifier. rewrite E1, E2. by intros [|].
Qed.

Lemma extractImports_invariant (P : list jsstring → Prop) content :
  (∀ pkg s, pkg ∈ capturedSpecifiers content → pkg ≠ [] →
            ¬ pathSpecifier pkg → P s → P (set_add (baseName pkg) s)) →
  P [] → P (extractImports content).
Proof.
  intros Hadd H0. unfold extractImports, capturedSpecifiers in *.
  repeat apply detect_invariant; try done.
  all: intros pkg s Hin; apply Hadd; rewrite !elem_of_app; auto.
Qed.

(** C1 (the code departs from the claim).  On the text made of the lines
    require(pkg), import x from pkg/sub and import(@scope/pkg), each
    specifier in double quotes, [analyzeFileImports] returns pkg and
    @scope: the sub-path collapses to its package, but the scoped
    specifier is cut at its first slash as well, so that @scope/pkg is not
    in the result. *)
Theorem analyzeFileImports_cuts_scoped_name :
  analyzeFileImports (Returned threeReferences)
    = Returned [str "pkg"; str "@scope"]
  ∧ capturedSpecifiers threeReferences
    = [str "pkg"; str "pkg/sub"; str "@scope/pkg"]
  ∧ baseName (str "@scope/pkg") = str "@scope"
  ∧ str "@scope/pkg" ∉ extractImports threeReferences.
Proof.
  split_and!; [by vm_compute..|].
  replace (extractImports threeReferences) with [str "pkg"; str "@scope"]
    by (by vm_compute).
  apply (bool_decide_unpack _). by vm_compute.
Qed.

(** C6.  When every specifier captured from a text starts with a dot or
    a slash, [analyzeFileImports] returns the empty set. *)
Theorem path_specifiers_discarded (content : jsstring) :
  (∀ pkg, pkg ∈ capturedSpecifiers content → pathSpecifier pkg) →
  analyzeFileImports (Returned content) = Returned [].
Proof.
  intros Hpaths. simpl. f_equal.
  apply (extractImports_invariant (λ s, s = [])); [|done].
  intros pkg s Hin _ Hnot. destruct Hnot. by apply Hpaths.
Qed.

Lemma path_specifiers_discarded_witness :
  capturedSpecifiers pathReferences = [str "./a"; str "/opt/b"; str "../c"]
  ∧ analyzeFileImports (Returned pathReferences) = Returned [].
Proof.
  split; [by vm_compute|].
  apply (path_specifiers_discarded pathReferences).
  apply Forall_forall, (bool_decide_unpack _). by vm_compute.
Defined.

(** C7.  The extraction is a total function of the text: for every
    string [analyzeFileImports] returns, never throws, and what it returns
    is a set (no name twice) of non-empty names without a slash, each the
    first segment of a captured specifier that is not a path; a text in
    which none of the three patterns matches gives the empty set. *)
Theorem extraction_total (content : jsstring) :
  ∃ imports,
    analyzeFileImports (Returned content) = Returned imports
    ∧ NoDup imports
    ∧ (∀ p, p ∈ imports →
         p ≠ [] ∧ (slash ∉ p)
         ∧ ∃ pkg, pkg ∈ capturedSpecifiers content
                  ∧ ¬ pathSpecifier pkg ∧ p = baseName pkg)
    ∧ (Regex.matchAll Regex.requireRe content = []
       → Regex.matchAll Regex.importFromRe content = []
       → Regex.matchAll Regex.dynamicImportRe content = []
       → imports = []).
Proof.
  exists (extractImports content). split_and!; [done| | |].
  - apply (extractImports_invariant NoDup); [|apply NoDup_nil_2].
    intros pkg s _ _ _. apply set_add_NoDup.
  - apply (extractImports_invariant
             (λ s, ∀ p, p ∈ s → p ≠ [] ∧ (slash ∉ p)
                ∧ ∃ pkg, pkg ∈ capturedSpecifiers content
                         ∧ ¬ pathSpecifier pkg ∧ p = baseName pkg)).
    + intros pkg s Hin Hne Hnot IH p [->|Hp]%elem_of_set_add; [|by apply IH].
      split_and!; [|apply baseName_no_slash|by exists pkg].
      apply baseName_nonempty; [done|].
      destruct (startsWith (str "/") pkg) eqn:E; [|done].
      destruct Hnot. by right.
    + intros p Hp. by apply elem_of_nil in Hp.
  - intros H1 H2 H3. unfold extractImports, detect. by rewrite H1, H2, H3.
Qed.

(** ** The walk *)

Section WalkProperties.

Variable pathJoin : jsstring → jsstring → jsstring.

(** The walk of a directory that can be listed, in the shape of the
    source: the subdirectories kept, then the files kept. *)
Lemma walk_directory targetPath allEntries :
  walk pathJoin targetPath (DirNode (Returned allEntries))
  = obind (processDirectories pathJoin targetPath
             (directories allEntries) emptyAnalysis)
          (λ acc, Returned (processFiles pathJoin targetPath acc
                              (files allEntries))).
Proof.
  simpl.
  match goal with
  | |- obind (?go allEntries emptyAnalysis) _ = _ =>
      assert (∀ l acc, go l acc
                = processDirectories pathJoin targetPath (directories l) acc)
        as ->; [|done]
  end.
  induction l as [|[dir [sub|e]] l IH]; intros acc; [done| |apply IH].
  destruct sub as [content|listing]; [apply IH|].
  cbn -[walk]. destruct (keptDirectory dir); [|apply IH].
  cbn -[walk].
  destruct (walk pathJoin (pathJoin targetPath dir) (DirNode listing));
    [apply IH|done].
Qed.

Lemma processFile_suggested targetPath acc file :
  suggestedAnalysis (processFile pathJoin targetPath acc file)
  = suggestedAnalysis acc
      ++ (if manyImports file.2 then [pathJoin targetPath file.1] else []).
Proof.
  unfold processFile, manyImports.
  destruct (analyzeFileImports file.2) as [imports|e]; simpl.
  - unfold suggestionThreshold.
    repeat case_bool_decide; simpl; rewrite ?app_nil_r; try done; lia.
  - by rewrite app_nil_r.
Qed.

Lemma processFiles_suggested targetPath fs acc :
  suggestedAnalysis (processFiles pathJoin targetPath acc fs)
  = suggestedAnalysis acc
      ++ ((λ file, pathJoin targetPath file.1)
            <$> filter (λ file, manyImports file.2 = true) fs).
Proof.
  unfold processFiles. revert acc.
  induction fs as [|file fs IH]; intros acc; simpl.
  - by rewrite app_nil_r.
  - rewrite IH, processFile_suggested, <- app_assoc. f_equal.
    rewrite filter_cons.
    destruct (manyImports file.2); case_decide; done.
Qed.

(** C5.  The loop over the files of a directory appends to the
    suggested list the paths of exactly the files read with more than
    three distinct packages, in order; so does the walk of a directory,
    after the suggestions of its subdirectories.  A file of three
    packages or fewer adds nothing. *)
Theorem deep_dive_threshold :
  suggestionThreshold = 3%nat
  ∧ (∀ content imports,
       analyzeFileImports content = Returned imports →
       manyImports content = true ↔ (3 < length imports)%nat)
  ∧ (∀ content e,
       analyzeFileImports content = Thrown e → manyImports content = false)
  ∧ (∀ targetPath acc fs,
       suggestedAnalysis (processFiles pathJoin targetPath acc fs)
       = suggestedAnalysis acc
           ++ ((λ file, pathJoin targetPath file.1)
                 <$> filter (λ file, manyImports file.2 = true) fs))
  ∧ (∀ targetPath allEntries analysis,
       walk pathJoin targetPath (DirNode (Returned allEntries))
         = Returned analysis →
       ∃ acc,
         processDirectories pathJoin targetPath
           (directories allEntries) emptyAnalysis = Returned acc
         ∧ suggestedAnalysis analysis
           = suggestedAnalysis acc
               ++ ((λ file, pathJoin targetPath file.1)
                     <$> filter (λ file, manyImports file.2 = true)
                           (files allEntries))).
Proof.
  split_and!; [done| | | |].
  - intros content imports H. unfold manyImports. rewrite H.
    apply bool_decide_eq_true.
  - intros content e H. unfold manyImports. by rewrite H.
  - intros. apply processFiles_suggested.
  - intros targetPath allEntries analysis. rewrite walk_directory.
    destruct (processDirectories _ _ _ _) as [acc|e]; simpl; [|done].
    intros [= <-]. exists acc. split; [done|].
    apply processFiles_suggested.
Qed.

End WalkProperties.

Lemma deep_dive_threshold_witness :
  ∃ analysis,
    analyzeProjectStructure posixJoin (str "/proj") (Some busyProject)
      = Returned analysis
    ∧ suggestedAnalysis analysis
      = [str "/proj/sub/deep.js"; str "/proj/four.ts"]
    ∧ length (extractImports fourPackages) = 4%nat
    ∧ length (extractImports threePackages) = 3%nat.
Proof.
  destruct (walk posixJoin (str "/proj") busyProject) as [analysis|e] eqn:E;
    [|by vm_compute in E].
  exists analysis. split; [done|].
  destruct (deep_dive_threshold posixJoin) as (_ & _ & _ & _ & Hwalk).
  destruct (Hwalk (str "/proj") _ analysis E) as (acc & Hacc & ->).
  vm_compute in Hacc. injection Hacc as <-.
  split_and!; by vm_compute.
Defined.

(** The listing of a directory decides its walk entry by entry. *)
Lemma listable_directory allEntries :
  listable (DirNode (Returned allEntries))
  = forallb (λ d, listable d.2) (directories allEntries).
Proof.
  simpl. induction allEntries as [|[dir [sub|e]] l IH]; [done| |apply IH].
  destruct sub as [content|listing]; [apply IH|].
  cbn -[listable]. rewrite IH.
  destruct (keptDirectory dir); [|done]. done.
Qed.

Lemma node_induction (P : node → Prop) :
  (∀ content, P (FileNode content)) →
  (∀ e, P (DirNode (Thrown e))) →
  (∀ allEntries,
     Forall (λ d, P d.2) (directories allEntries) →
     P (DirNode (Returned allEntries))) →
  ∀ n, P n.
Proof.
  intros Hfile Hthrown Hdir.
  refine (fix IH (n : node) : P n :=
            match n with
            | FileNode content => Hfile content
            | DirNode (Thrown e) => Hthrown e
            | DirNode (Returned allEntries) =>
                Hdir allEntries
                  ((fix all (l : list (jsstring * outcome node))
                      : Forall (λ d, P d.2) (directories l) :=
                      match l with
                      | [] => Forall_nil_2 _
                      | (dir, Returned sub) :: rest => _
                      | (dir, Thrown _) :: rest => all rest
                      end) allEntries)
            end).
  destruct sub as [content|listing] eqn:E.
  - exact (all rest).
  - simpl. destruct (keptDirectory dir).
    + apply Forall_cons_2; [|exact (all rest)]. rewrite <- E. exact (IH sub).
    + exact (all rest).
Qed.

Section WalkFailures.

Variable pathJoin : jsstring → jsstring → jsstring.

(** A path that does not exist yields the empty analysis. *)
Lemma missing_root_empty targetPath :
  analyzeProjectStructure pathJoin targetPath None = Returned emptyAnalysis.
Proof. done. Qed.

(** An entry that cannot be examined is skipped: the walk is that of
    the listing without it. *)
Lemma unstatable_entry_skipped targetPath before entry e after :
  walk pathJoin targetPath
    (DirNode (Returned (before ++ (entry, Thrown e) :: after)))
  = walk pathJoin targetPath (DirNode (Returned (before ++ after))).
Proof.
  rewrite !walk_directory.
  assert (directories (before ++ (entry, Thrown e) :: after)
          = directories (before ++ after)) as ->.
  { induction before as [|[d [[c|l]|e']] before IH]; simpl; try done;
      rewrite IH; done. }
  assert (files (before ++ (entry, Thrown e) :: after)
          = files (before ++ after)) as ->; [|done].
  induction before as [|[d [[c|l]|e']] before IH]; simpl; try done;
    rewrite IH; done.
Qed.

(** A file that cannot be read is listed in the structure and adds
    nothing else; the files after it are processed. *)
Lemma unreadable_file_skipped targetPath acc file e rest :
  processFiles pathJoin targetPath acc ((file, Thrown e) :: rest)
  = processFiles pathJoin targetPath
      {| structure :=
           structure acc ++ [FileItem file (pathJoin targetPath file)];
         packageImports := packageImports acc;
         suggestedAnalysis := suggestedAnalysis acc |}
      rest.
Proof. done. Qed.

(** The walk returns whenever every kept subdirectory, at every depth,
    can be listed: unreadable files and entries that cannot be examined
    never make it throw. *)
Lemma listable_walk_returns n :
  ∀ targetPath, listable n = true →
    ∃ analysis, walk pathJoin targetPath n = Returned analysis.
Proof.
  induction n as [content|e|allEntries IH] using node_induction;
    intros targetPath; [done..|].
  rewrite listable_directory, walk_directory. intros Hl.
  enough (∀ acc, ∃ acc', processDirectories pathJoin targetPath
                           (directories allEntries) acc = Returned acc')
    as Hdirs.
  { destruct (Hdirs emptyAnalysis) as [acc' ->]. simpl. eauto. }
  revert IH Hl. generalize (directories allEntries) as dirs.
  induction dirs as [|d dirs IHdirs]; intros IH Hl acc; [by eexists|].
  apply Forall_cons in IH as [IHd IH].
  cbn -[listable] in Hl. apply andb_prop in Hl as [Hd Hl].
  cbn -[walk].
  destruct (IHd (pathJoin targetPath d.1) Hd) as [sub ->].
  by apply IHdirs.
Qed.

(** C3 (the code departs from the claim).  A project with a source file
    and a subdirectory whose listing fails: the failure of
    [fs.readdirSync] in the recursive call is not caught, the walk throws
    and the command reports an error, whereas without the subdirectory
    the file is analysed; a root that exists and cannot be listed throws
    as well. *)
Theorem unlistable_subdirectory_aborts_walk :
  analyzeProjectStructure pathJoin (str "/proj") (Some lockedProject)
    = Thrown permissionDenied
  ∧ analyzeProjectCommand pathJoin (str "/proj") (Some lockedProject)
    = ShowErrorMessage (str "Error analyzing project: " ++ permissionDenied)
  ∧ analyzeProjectStructure pathJoin (str "/proj/locked")
      (Some (DirNode (Thrown permissionDenied)))
    = Thrown permissionDenied
  ∧ (∃ analysis,
       analyzeProjectStructure pathJoin (str "/proj") (Some openProject)
         = Returned analysis
       ∧ packageImports analysis
         = [(pathJoin (str "/proj") (str "a.ts"), [str "lodash"])]).
Proof.
  split_and!; [by vm_compute..|].
  eexists. split; by vm_compute.
Qed.

(** C9 (as amended).  On a target path that does not exist
    [analyzeProjectStructure] returns the empty analysis, and the command
    shows the information message of a scan that found no package, the
    same as on an empty directory; no metadata is requested. *)
Theorem missing_target_is_an_empty_scan (targetPath : jsstring) :
  analyzeProjectStructure pathJoin targetPath None = Returned emptyAnalysis
  ∧ analyzeProjectCommand pathJoin targetPath None
    = ShowInformationMessage noPackagesInProject
  ∧ analyzeProjectCommand pathJoin targetPath None
    = analyzeProjectCommand pathJoin targetPath (Some (DirNode (Returned []))).
Proof. done. Qed.

End WalkFailures.

(** C9 (counterexample).  The command on the missing path /nowhere shows
    no error: its outcome is the information message of an empty scan,
    equal to its outcome on an empty directory. *)
Lemma missing_target_not_signalled :
  (∀ m, analyzeProjectCommand posixJoin (str "/nowhere") None
        ≠ ShowErrorMessage m)
  ∧ analyzeProjectCommand posixJoin (str "/nowhere") None
    = analyzeProjectCommand posixJoin (str "/nowhere")
        (Some (DirNode (Returned []))).
Proof. split; [intros m|]; done. Qed.

(** ** The file commands *)

Lemma elem_of_keys_set {V} (f k : jsstring) (v : V) (o : Obj.t V) :
  f ∈ Obj.keys (Obj.set k v o) ↔ f = k ∨ f ∈ Obj.keys o.
Proof.
  unfold Obj.keys. induction o as [|[k' v'] o IH]; simpl.
  - rewrite list_elem_of_singleton, elem_of_nil. tauto.
  - destruct (decide (k' = k)) as [->|Hne]; simpl;
      rewrite !elem_of_cons; [tauto|]. rewrite IH. tauto.
Qed.

Lemma keys_set_NoDup {V} (k : jsstring) (v : V) (o : Obj.t V) :
  NoDup (Obj.keys o) → NoDup (Obj.keys (Obj.set k v o)).
Proof.
  unfold Obj.keys. induction o as [|[k' v'] o IH]; simpl.
  - intros _. apply NoDup_singleton.
  - rewrite NoDup_cons. intros [Hk' Ho].
    destruct (decide (k' = k)) as [->|Hne]; simpl; apply NoDup_cons.
    + done.
    + split; [|by apply IH].
      intros [?|?]%(elem_of_keys_set (V:=V)); [congruence|done].
Qed.

Section FileCommands.

Variable extname : jsstring → jsstring.
Variable readFileSync : jsstring → outcome jsstring.

Lemma scan_keys selectedFiles :
  ∀ acc packageImports,
    forEach (λ packageImports path,
               obind (analyzeFileImports (readFileSync path))
                 (λ imports,
                    Returned (if bool_decide (0 < length imports)%nat
                              then Obj.set path imports packageImports
                              else packageImports)))
            acc selectedFiles = Returned packageImports →
    (NoDup (Obj.keys acc) → NoDup (Obj.keys packageImports))
    ∧ ∀ f, f ∈ Obj.keys packageImports
           ↔ f ∈ Obj.keys acc ∨ (f ∈ selectedFiles ∧ hasPackages readFileSync f).
Proof.
  induction selectedFiles as [|path l IH]; intros acc packageImports; simpl.
  - intros [= <-]. split; [done|]. intros f. rewrite elem_of_nil. tauto.
  - destruct (analyzeFileImports (readFileSync path)) as [imports|e] eqn:E;
      simpl; [|done].
    intros Hrun. apply IH in Hrun as [Hnodup Hkeys].
    case_bool_decide as Hlen.
    + assert (hasPackages readFileSync path) as Hp.
      { exists imports. split; [done|]. intros ->. simpl in Hlen. lia. }
      split; [intros ?; by apply Hnodup, keys_set_NoDup|].
      intros f. rewrite Hkeys, elem_of_keys_set, elem_of_cons.
      clear Hkeys IH Hnodup. intuition (subst; auto).
    + assert (¬ hasPackages readFileSync path) as Hp.
      { intros (imports' & Himp & Hne). rewrite E in Himp.
        injection Himp as <-. destruct imports; [done|simpl in Hlen; lia]. }
      split; [done|]. intros f. rewrite Hkeys, elem_of_cons.
      clear Hkeys IH Hnodup. intuition (subst; auto; done).
Qed.

(** C10.  When the selected-files command goes on to display an
    analysis, its suggested list holds each selected file whose
    extraction produced at least one package, once, and nothing else,
    whatever the number of packages; when the current-file command does,
    its suggested list is the analysed file alone. *)
Theorem file_commands_suggestions :
  (∀ selectedFiles analysis packageNames,
     analyzeSelectedFilesCommand readFileSync (Some selectedFiles)
       = FetchAndDisplay analysis packageNames →
     suggestedAnalysis analysis = Obj.keys (packageImports analysis)
     ∧ NoDup (suggestedAnalysis analysis)
     ∧ ∀ f, f ∈ suggestedAnalysis analysis
            ↔ f ∈ selectedFiles ∧ hasPackages readFileSync f)
  ∧ (∀ filePath analysis packageNames,
       analyzeCurrentFileCommand extname readFileSync (Some filePath)
         = FetchAndDisplay analysis packageNames →
       suggestedAnalysis analysis = [filePath]).
Proof.
  split.
  - intros selectedFiles analysis packageNames.
    unfold analyzeSelectedFilesCommand.
    destruct selectedFiles as [|f0 l]; [done|].
    generalize (f0 :: l) as selected. intros selected.
    unfold scanSelected.
    destruct (forEach _ _ _) as [packageImports|e] eqn:E; [|done].
    case_bool_decide; [done|]. intros [= <- _]. simpl.
    apply scan_keys in E as [Hnodup Hkeys].
    split_and!; [done|apply Hnodup, NoDup_nil_2|].
    intros f. rewrite Hkeys. unfold Obj.keys. simpl.
    rewrite elem_of_nil. tauto.
  - intros filePath analysis packageNames. unfold analyzeCurrentFileCommand.
    case_bool_decide; [done|].
    destruct (analyzeFileImports _); [|done].
    case_bool_decide; [done|]. by intros [= <- _].
Qed.

End FileCommands.

Lemma file_commands_suggestions_witness :
  (∃ analysis packageNames,
     analyzeSelectedFilesCommand smallDisk
       (Some [str "/w/one.ts"; str "/w/none.js"; str "/w/two.js"])
       = FetchAndDisplay analysis packageNames
     ∧ suggestedAnalysis analysis = [str "/w/one.ts"; str "/w/two.js"])
  ∧ (∃ analysis packageNames,
       analyzeCurrentFileCommand lastExtension smallDisk (Some (str "/w/one.ts"))
         = FetchAndDisplay analysis packageNames
       ∧ packageNames = [str "left-pad"]
       ∧ suggestedAnalysis analysis = [str "/w/one.ts"]).
Proof.
  destruct (file_commands_suggestions lastExtension smallDisk) as [Hsel Hcur].
  split.
  - destruct (analyzeSelectedFilesCommand smallDisk
                (Some [str "/w/one.ts"; str "/w/none.js"; str "/w/two.js"]))
      as [| | |analysis packageNames] eqn:E; try by vm_compute in E.
    exists analysis, packageNames. split; [done|].
    destruct (Hsel _ _ _ E) as [-> _].
    vm_compute in E. by injection E as <- _.
  - destruct (analyzeCurrentFileCommand lastExtension smallDisk
                (Some (str "/w/one.ts")))
      as [| | |analysis packageNames] eqn:E; try by vm_compute in E.
    exists analysis, packageNames. split; [done|].
    split; [|by apply (Hcur _ _ _ E)].
    vm_compute in E. by injection E as _ <-.
Defined.

(** ** Usage aggregation *)

Lemma counted_app o l1 l2 : counted (counted o l1) l2 = counted o (l1 ++ l2).
Proof.
  destruct l1 as [|a l1]; [done|]. destruct l2 as [|b l2]; simpl.
  - by rewrite app_nil_r.
  - f_equal. rewrite <- app_assoc. simpl. f_equal.
    rewrite !length_app. simpl. lia.
Qed.

Lemma recordUsage_lookup file pu pkg :
  pkg ∉ inheritedProperties →
  ∃ pu', recordUsage file pu pkg = Returned pu'
         ∧ ∀ q, pu' !! q
                = if decide (q = pkg) then counted (pu !! q) [file]
                  else pu !! q.
Proof.
  intros Hplain. unfold recordUsage.
  destruct (decide (pkg ∈ inheritedProperties)); [done|].
  eexists. split; [done|]. intros q.
  destruct (decide (q = pkg)) as [->|Hne].
  - rewrite lookup_alter_eq.
    destruct (pu !! pkg) as [u|] eqn:E; simpl.
    + rewrite E. simpl. do 2 f_equal. lia.
    + by rewrite lookup_insert_eq.
  - rewrite lookup_alter_ne by done.
    destruct (pu !! pkg); [done|]. by rewrite lookup_insert_ne.
Qed.

Lemma recordUsage_list file imports :
  ∀ pu, Forall (λ p, p ∉ inheritedProperties) imports →
    ∃ pu', forEach (recordUsage file) pu imports = Returned pu'
           ∧ ∀ q, pu' !! q
                  = counted (pu !! q)
                      ((λ _, file) <$> filter (λ p, p = q) imports).
Proof.
  induction imports as [|pkg imports IH]; intros pu Hplain; simpl.
  - eexists. split; [done|]. done.
  - apply Forall_cons in Hplain as [Hpkg Hplain].
    destruct (recordUsage_lookup file pu pkg Hpkg) as (pu1 & -> & H1). simpl.
    destruct (IH pu1 Hplain) as (pu' & -> & H'). eexists. split; [done|].
    intros q. rewrite H', H1, filter_cons.
    destruct (decide (q = pkg)) as [->|Hne].
    + rewrite decide_True by done. by rewrite counted_app.
    + rewrite decide_False by congruence. done.
Qed.

Lemma recordUsage_list_thrown file imports :
  ∀ pu, ¬ Forall (λ p, p ∉ inheritedProperties) imports →
    forEach (recordUsage file) pu imports = Thrown pushOfUndefined.
Proof.
  induction imports as [|pkg imports IH]; intros pu Hnot; simpl.
  - destruct Hnot. constructor.
  - unfold recordUsage at 1.
    destruct (decide (pkg ∈ inheritedProperties)) as [|Hpkg]; [done|]. simpl.
    apply IH. intros Hrest. apply Hnot. by constructor.
Qed.

Lemma packageUsageFrom_lookup packageImports :
  ∀ pu, plainNames packageImports →
    ∃ pu', packageUsageFrom pu packageImports = Returned pu'
           ∧ ∀ q, pu' !! q = counted (pu !! q) (uses q packageImports).
Proof.
  unfold packageUsageFrom, uses, Obj.entries.
  induction packageImports as [|[file imports] es IH]; intros pu Hplain; simpl.
  - eexists. split; [done|]. done.
  - apply Forall_cons in Hplain as [Himports Hplain]. simpl in Himports.
    destruct (recordUsage_list file imports pu Himports) as (pu1 & -> & H1).
    simpl. destruct (IH pu1 Hplain) as (pu' & -> & H').
    eexists. split; [done|]. intros q. by rewrite H', H1, counted_app.
Qed.

Lemma packageUsageFrom_thrown packageImports :
  ∀ pu, ¬ plainNames packageImports →
    packageUsageFrom pu packageImports = Thrown pushOfUndefined.
Proof.
  unfold packageUsageFrom, Obj.entries.
  induction packageImports as [|[file imports] es IH]; intros pu Hnot; simpl.
  - destruct Hnot. constructor.
  - destruct (decide (Forall (λ p, p ∉ inheritedProperties) imports))
      as [Himports|Himports].
    + destruct (recordUsage_list file imports pu Himports) as (pu1 & -> & _).
      simpl. apply IH. intros Hrest. apply Hnot. by constructor.
    + by rewrite recordUsage_list_thrown.
Qed.

Lemma uses_nil_iff pkg (packageImports : Obj.t (list jsstring)) :
  uses pkg packageImports = []
  ↔ ¬ ∃ entry, entry ∈ packageImports ∧ pkg ∈ entry.2.
Proof.
  unfold uses, Obj.entries. split.
  - intros Hnil (entry & Hin & Hpkg).
    assert (entry.1 ∈ packageImports
              ≫= λ entry, (λ _, entry.1) <$> filter (λ p, p = pkg) entry.2)
      as Hmem; [|rewrite Hnil in Hmem; by apply elem_of_nil in Hmem].
    apply list_elem_of_bind. exists entry. split; [|done].
    apply list_elem_of_fmap. exists pkg. split; [done|].
    by apply list_elem_of_filter.
  - intros Hnone. apply elem_of_nil_inv. intros f Hf.
    apply list_elem_of_bind in Hf as (entry & Hf & Hin).
    apply list_elem_of_fmap in Hf as (p & _ & Hp).
    apply list_elem_of_filter in Hp as [-> Hp]. apply Hnone. eauto.
Qed.

Lemma uses_length_NoDup pkg (packageImports : Obj.t (list jsstring)) :
  Forall (λ entry, NoDup entry.2) packageImports →
  length (uses pkg packageImports)
  = length (filter (λ entry, pkg ∈ entry.2) packageImports).
Proof.
  unfold uses, Obj.entries.
  induction 1 as [|[file imports] es Hnodup _ IH]; [done|].
  rewrite bind_cons, length_app, IH, filter_cons, length_fmap. simpl in *.
  assert (length (filter (λ p, p = pkg) imports)
          = if decide (pkg ∈ imports) then 1%nat else 0%nat) as ->.
  { clear -Hnodup. induction Hnodup as [|p l Hp _ IHl].
    - by destruct (decide (pkg ∈ [])) as [H%elem_of_nil|].
    - rewrite filter_cons.
      destruct (decide (p = pkg)) as [->|Hne]; cbn [length]; rewrite IHl;
        destruct (decide (pkg ∈ l)) as [Hl|Hl];
        destruct (decide (pkg ∈ _ :: l)) as [Hc|Hc]; try done;
        exfalso; rewrite ?elem_of_cons in *; intuition congruence. }
  by destruct (decide (pkg ∈ imports)).
Qed.

Lemma elem_of_extractUniquePackages pkg (packageImports : Obj.t (list jsstring)) :
  pkg ∈ extractUniquePackages packageImports
  ↔ ∃ entry, entry ∈ packageImports ∧ pkg ∈ entry.2.
Proof.
  unfold extractUniquePackages, Obj.values.
  enough (∀ acc, pkg ∈ foldl (λ u imports, foldl (λ u p, set_add p u) u imports)
                          acc (packageImports.*2)
                 ↔ pkg ∈ acc ∨ ∃ entry, entry ∈ packageImports ∧ pkg ∈ entry.2)
    as H.
  { rewrite H, elem_of_nil. tauto. }
  induction packageImports as [|[file imports] es IH]; intros acc; simpl.
  - split; [by left|]. intros [?|(entry & Hin & _)]; [done|].
    by apply elem_of_nil in Hin.
  - rewrite IH.
    assert (∀ acc, pkg ∈ foldl (λ u p, set_add p u) acc imports
                   ↔ pkg ∈ acc ∨ pkg ∈ imports) as ->.
    { clear. induction imports as [|p l IHl]; intros acc; simpl.
      - rewrite elem_of_nil. tauto.
      - rewrite IHl, elem_of_set_add, elem_of_cons. tauto. }
    split.
    + intros [[?|?]|(entry & Hin & Hp)]; [by left| |].
      * right. exists (file, imports). split; [by left|done].
      * right. exists entry. split; [by right|done].
    + intros [?|(entry & [->|Hin]%elem_of_cons & Hp)]; [by left; left| |].
      * by left; right.
      * right. eauto.
Qed.

Lemma extractUniquePackages_NoDup (packageImports : Obj.t (list jsstring)) :
  NoDup (extractUniquePackages packageImports).
Proof.
  unfold extractUniquePackages.
  generalize (Obj.values packageImports) as vs. intros vs.
  enough (∀ acc, NoDup acc →
            NoDup (foldl (λ u imports, foldl (λ u p, set_add p u) u imports)
                         acc vs)) as H by (apply H, NoDup_nil_2).
  induction vs as [|imports vs IH]; intros acc Hacc; simpl; [done|].
  apply IH. clear IH. revert acc Hacc.
  induction imports as [|p l IHl]; intros acc Hacc; simpl; [done|].
  by apply IHl, set_add_NoDup.
Qed.

Lemma count_counted (l : list jsstring) :
  Usage.count <$> counted None l
  = if decide (length l = 0%nat) then None else Some (length l).
Proof. by destruct l. Qed.

Lemma packageUsage_lookup packageImports :
  plainNames packageImports →
  ∃ u, packageUsage packageImports = Returned u
       ∧ ∀ q, u !! q = counted None (uses q packageImports).
Proof.
  intros Hplain. unfold packageUsage.
  destruct (packageUsageFrom_lookup packageImports ∅ Hplain) as (u & -> & Hu).
  exists u. split; [done|]. intros q. by rewrite Hu, lookup_empty.
Qed.

(** C8.  For two file-to-packages maps that are permutations of each
    other, [extractUniquePackages] yields the same packages, and the
    [packageUsage] loop either throws on both (a package named like a
    property of Object.prototype) or returns on both tables with the same
    keys, the keys being the unique packages, and the same count for every
    package; when no import list names a package twice the count is the
    number of files that reference the package.  The loop returns whenever
    no such name occurs. *)
Theorem aggregation_permutation_invariant
    (packageImports1 packageImports2 : Obj.t (list jsstring)) :
  packageImports1 ≡ₚ packageImports2 →
  (∀ pkg, pkg ∈ extractUniquePackages packageImports1
          ↔ pkg ∈ extractUniquePackages packageImports2)
  ∧ match packageUsage packageImports1, packageUsage packageImports2 with
    | Returned u1, Returned u2 =>
        dom u1 = dom u2
        ∧ (∀ pkg, Usage.count <$> u1 !! pkg = Usage.count <$> u2 !! pkg)
        ∧ (∀ pkg, pkg ∈ dom u1 ↔ pkg ∈ extractUniquePackages packageImports1)
        ∧ (Forall (λ entry, NoDup entry.2) packageImports1 →
           ∀ pkg u, u1 !! pkg = Some u →
             Usage.count u
             = length (filter (λ entry, pkg ∈ entry.2) packageImports1))
    | Thrown e1, Thrown e2 => e1 = e2
    | _, _ => False
    end
  ∧ (plainNames packageImports1 →
     ∃ u1 u2, packageUsage packageImports1 = Returned u1
              ∧ packageUsage packageImports2 = Returned u2).
Proof.
  intros Hperm.
  assert (plainNames packageImports1 ↔ plainNames packageImports2) as Hplain.
  { unfold plainNames. by rewrite Hperm. }
  assert (∀ pkg, length (uses pkg packageImports1)
                 = length (uses pkg packageImports2)) as Hlen.
  { intros pkg. unfold uses, Obj.entries. by rewrite Hperm. }
  split_and!.
  - intros pkg. rewrite !elem_of_extractUniquePackages.
    split; intros (entry & Hin & Hpkg); exists entry; split; try done.
    + by rewrite <- Hperm.
    + by rewrite Hperm.
  - destruct (decide (plainNames packageImports1)) as [H1|H1].
    + destruct (packageUsage_lookup _ H1) as (u1 & -> & Hu1).
      destruct (packageUsage_lookup _ (proj1 Hplain H1)) as (u2 & -> & Hu2).
      assert (∀ pkg, Usage.count <$> u1 !! pkg = Usage.count <$> u2 !! pkg)
        as Hcount.
      { intros pkg. by rewrite Hu1, Hu2, !count_counted, Hlen. }
      split_and!; [|done| |].
      * apply set_eq. intros pkg. rewrite !elem_of_dom.
        rewrite <- !(fmap_is_Some Usage.count). by rewrite Hcount.
      * intros pkg.
        rewrite elem_of_dom, Hu1, elem_of_extractUniquePackages.
        destruct (uses pkg packageImports1) as [|f l] eqn:E; simpl.
        -- apply uses_nil_iff in E. split; [by intros [? ?]|done].
        -- split; [intros _|by eauto].
           assert (f ∈ uses pkg packageImports1) as Hf by (rewrite E; by left).
           apply list_elem_of_bind in Hf as (entry & Hf & Hin).
           apply list_elem_of_fmap in Hf as (p & _ & Hp).
           apply list_elem_of_filter in Hp as [-> Hp]. eauto.
      * intros Hnodup pkg u. rewrite Hu1.
        rewrite <- (uses_length_NoDup pkg _ Hnodup).
        destruct (uses pkg packageImports1); [done|]. by intros [= <-].
    + unfold packageUsage. rewrite !packageUsageFrom_thrown; tauto.
  - intros H1.
    destruct (packageUsage_lookup _ H1) as (u1 & -> & _).
    destruct (packageUsage_lookup _ (proj1 Hplain H1)) as (u2 & -> & _).
    eauto.
Qed.

Lemma aggregation_permutation_invariant_witness :
  extractUniquePackages twoFiles = [str "lodash"; str "react"]
  ∧ extractUniquePackages twoFilesSwapped = [str "lodash"; str "react"]
  ∧ ∃ u1 u2,
      packageUsage twoFiles = Returned u1
      ∧ packageUsage twoFilesSwapped = Returned u2
      ∧ u1 !! str "lodash" = Some (Usage.mk 2 [str "/p/a.ts"; str "/p/b.ts"])
      ∧ u2 !! str "lodash" = Some (Usage.mk 2 [str "/p/b.ts"; str "/p/a.ts"])
      ∧ dom u1 = dom u2.
Proof.
  split; [by vm_compute|]. split; [by vm_compute|].
  assert (twoFiles ≡ₚ twoFilesSwapped) as Hperm by apply Permutation_swap.
  destruct (aggregation_permutation_invariant _ _ Hperm) as (_ & Hsame & Hret).
  destruct Hret as (u1 & u2 & E1 & E2).
  { apply (bool_decide_unpack _). by vm_compute. }
  exists u1, u2. rewrite E1, E2 in Hsame. destruct Hsame as (Hdom & _).
  split_and!; try done.
  - unfold packageUsage in E1.
    destruct (packageUsageFrom_lookup twoFiles ∅) as (u & Hu & Hlook).
    { apply (bool_decide_unpack _). by vm_compute. }
    rewrite E1 in Hu. injection Hu as <-. by rewrite Hlook.
  - unfold packageUsage in E2.
    destruct (packageUsageFrom_lookup twoFilesSwapped ∅) as (u & Hu & Hlook).
    { apply (bool_decide_unpack _). by vm_compute. }
    rewrite E2 in Hu. injection Hu as <-. by rewrite Hlook.
Defined.

(** ** The metadata *)

Module FetchProperties.
Import Fetch.

Lemma lookup_table (t : table) k :
  t !! k = if decide (k = protoName) then proto t else own t !! k.
Proof. done. Qed.

Lemma lookup_table_empty k : (∅ : table) !! k = None.
Proof. rewrite lookup_table. by destruct (decide _). Qed.

Lemma lookup_assign_eq k r t : assign k r t !! k = Some r.
Proof.
  rewrite lookup_table. unfold assign.
  destruct (decide (k = protoName)); cbn [own proto]; [done|].
  apply lookup_insert_eq.
Qed.

Lemma lookup_assign_ne k k' r t : k ≠ k' → assign k r t !! k' = t !! k'.
Proof.
  intros Hne. rewrite !lookup_table. unfold assign.
  destruct (decide (k = protoName)) as [->|]; cbn [own proto].
  - destruct (decide (k' = protoName)); [congruence|done].
  - destruct (decide (k' = protoName)); [done|]. by apply lookup_insert_ne.
Qed.

Lemma lookup_assignWeeklyDownloads_eq k n t :
  assignWeeklyDownloads k n t !! k = withWeeklyDownloads n <$> t !! k.
Proof.
  rewrite !lookup_table. unfold assignWeeklyDownloads.
  destruct (decide (k = protoName)); cbn [own proto]; [done|].
  apply lookup_alter_eq.
Qed.

Lemma lookup_assignWeeklyDownloads_ne k k' n t :
  k ≠ k' → assignWeeklyDownloads k n t !! k' = t !! k'.
Proof.
  intros Hne. rewrite !lookup_table. unfold assignWeeklyDownloads.
  destruct (decide (k = protoName)) as [->|]; cbn [own proto].
  - destruct (decide (k' = protoName)); [congruence|done].
  - destruct (decide (k' = protoName)); [done|]. by apply lookup_alter_ne.
Qed.

Lemma recommend_lookup pd packageName :
  recommend pd !! packageName = recommended packageName <$> pd !! packageName.
Proof.
  rewrite !lookup_table. unfold recommend, recommended. simpl.
  destruct (decide (packageName = protoName)).
  - by destruct (proto pd).
  - rewrite map_lookup_imap. by destruct (own pd !! packageName).
Qed.

(** [__proto__] is never an own key of the table. *)
Lemma own_protoName packageNames net schedule :
  own (packageData (run packageNames net schedule)) !! protoName = None.
Proof.
  unfold run.
  assert (own (packageData (start packageNames)) !! protoName = None) as H0
    by done.
  revert H0. generalize (start packageNames) as st. revert schedule.
  induction schedule as [|k schedule IH]; intros st Hst; simpl; [done|].
  apply IH. unfold resume.
  assert (∀ q r, own (assign q r (packageData st)) !! protoName = None)
    as Hassign.
  { intros q r. unfold assign.
    destruct (decide (q = protoName)); simpl; [done|].
    by rewrite lookup_insert_ne. }
  assert (∀ q n,
            own (assignWeeklyDownloads q n (packageData st)) !! protoName
            = None) as Hcount.
  { intros q n. unfold assignWeeklyDownloads.
    destruct (decide (q = protoName)); simpl; [done|].
    by rewrite lookup_alter_ne. }
  destruct (packageNames !! k) as [q|]; [|done].
  destruct (phases st !! k) as [[]|]; [| |done..].
  - destruct (registry net k) as [r|e];
      [destruct (decide (status r = _)); [destruct (data r)|]|]; simpl; done.
  - destruct (downloads net k) as [r|e];
      [destruct (decide (status r = _)); [destruct (data r)|]|]; simpl; done.
Qed.

Lemma own_protoName_result packageNames net schedule result :
  fetchNpmMetadata packageNames net schedule = Some result →
  own result !! protoName = None.
Proof.
  unfold fetchNpmMetadata. destruct (allSettled _); [|done]. intros [= <-].
  unfold recommend. cbn [own]. by rewrite map_lookup_imap, own_protoName.
Qed.

(** Two tables without the key [__proto__] that read alike are the
    same. *)
Lemma table_eq (t1 t2 : table) :
  own t1 !! protoName = None → own t2 !! protoName = None →
  (∀ k, t1 !! k = t2 !! k) → t1 = t2.
Proof.
  intros H1 H2 Hall. destruct t1 as [o1 p1], t2 as [o2 p2]. simpl in *.
  f_equal.
  - apply map_eq. intros k. destruct (decide (k = protoName)) as [->|Hne].
    + by rewrite H1, H2.
    + specialize (Hall k). rewrite !lookup_table in Hall.
      by rewrite !decide_False in Hall.
  - specialize (Hall protoName). rewrite !lookup_table in Hall.
    by rewrite !decide_True in Hall.
Qed.

(** Once all fetches have completed, every key of the table returned,
    the degraded records under their names among them, carries an
    alternatives list, that of the lookup table for its name; the keys
    are those the fetches stored. *)
Lemma alternatives_on_every_key packageNames net schedule result :
  fetchNpmMetadata packageNames net schedule = Some result →
  (∀ packageName r,
     own result !! packageName = Some r →
     alternatives r = Some (alternativesFor packageName))
  ∧ dom (own result) = dom (own (packageData (run packageNames net schedule)))
  ∧ proto result = proto (packageData (run packageNames net schedule)).
Proof.
  unfold fetchNpmMetadata.
  destruct (allSettled _); [|done]. intros [= <-]. split_and!.
  - intros packageName r. unfold recommend. simpl. rewrite map_lookup_imap.
    destruct (_ !! packageName); [|done]. by intros [= <-].
  - apply set_eq. intros packageName.
    rewrite !elem_of_dom. unfold recommend. simpl. rewrite map_lookup_imap.
    destruct (_ !! packageName); simpl; split; intros [? ?]; by eauto.
  - done.
Qed.

Lemma alternativesFor_table :
  alternativesFor (str "moment") = [str "date-fns"; str "dayjs"; str "luxon"]
  ∧ (∀ packageName,
       packageName ∉ [str "moment"; str "lodash"; str "underscore";
                      str "request"; str "jquery"] →
       alternativesFor packageName = []).
Proof.
  split; [done|].
  intros packageName Hout. unfold alternativesFor.
  repeat (destruct (decide _) as [Hin|_];
          [destruct Hout; rewrite ?elem_of_cons; tauto|]).
  done.
Qed.

(** ** Completion *)




(** ** A package whose registry request throws *)

Section FailedRequest.

Variable packageNames : list jsstring.
Variable net : network.
Variable packageName : jsstring.
Hypothesis throws :
  ∀ j, packageNames !! j = Some packageName →
       ∃ message, registry net j = Thrown message.

Local Abbreviation failing := (failing packageNames net packageName).

Lemma failing_start : failing (start packageNames).
Proof.
  split; simpl.
  - intros (q & [=] & _)%list_elem_of_fmap.
  - intros j Hj. left. by rewrite list_lookup_fmap, Hj.
Qed.

Lemma failing_resume st k : failing st → failing (resume packageNames net st k).
Proof.
  intros [Hreq Hphase]. unfold resume.
  destruct (packageNames !! k) as [q|] eqn:Hk; [|done].
  destruct (decide (q = packageName)) as [->|Hq].
  - destruct (throws k Hk) as [message Hthrown].
    destruct (Hphase k Hk) as [Hp|[Hp _]]; rewrite Hp; [|by split].
    rewrite Hthrown. split; [done|]. simpl. intros j Hj.
    assert (∃ k' message',
              packageNames !! k' = Some packageName
              ∧ registry net k' = Thrown message'
              ∧ packageData
                  (settle k (assign packageName (degraded packageName message)
                               (packageData st)) st) !! packageName
                = Some (degraded packageName message')) as Hstored.
    { exists k, message. simpl. by rewrite lookup_assign_eq. }
    destruct (decide (j = k)) as [->|Hne].
    + right. split; [|exact Hstored].
      apply list_lookup_insert_eq. by eapply lookup_lt_Some.
    + rewrite list_lookup_insert_ne by done.
      destruct (Hphase j Hj) as [?|[? _]]; [by left|right].
      split; [done|exact Hstored].
  - assert (∀ ph pd rq,
              pd !! packageName = packageData st !! packageName →
              DownloadsRequest packageName ∉ rq →
              failing (mkState pd (<[k:=ph]> (phases st)) rq)) as Hkeep.
    { intros ph pd rq Hpd Hrq. split; [done|]. simpl. intros j Hj.
      rewrite list_lookup_insert_ne by congruence. rewrite Hpd.
      by apply Hphase. }
    assert (DownloadsRequest packageName
              ∉ requests st ++ [DownloadsRequest q]) as Hreq'.
    { rewrite elem_of_app, list_elem_of_singleton.
      intros [?|[=]]; [done|congruence]. }
    destruct (phases st !! k) as [[]|]; [| |done..].
    + destruct (registry net k) as [r|e];
        [destruct (decide (status r = _)); [destruct (data r)|]|];
        unfold settle; apply Hkeep;
        rewrite ?lookup_assign_ne by done; done.
    + destruct (downloads net k) as [r|e];
        [destruct (decide (status r = _)); [destruct (data r)|]|];
        unfold settle; apply Hkeep;
        rewrite ?lookup_assignWeeklyDownloads_ne by done; done.
Qed.

Lemma failing_run schedule : failing (run packageNames net schedule).
Proof.
  unfold run. generalize failing_start.
  generalize (start packageNames) as st. revert schedule.
  induction schedule as [|j schedule IH]; intros st Hst; simpl; [done|].
  by apply IH, failing_resume.
Qed.

(** C2.  For a package among those requested whose registry request
    throws (each of them, were the name passed more than once), in
    whatever order the answers arrive: once all fetches have completed
    the table holds its degraded record, with its name, the description of
    the failure (not empty), the message thrown, an empty version and no
    weeklyDownloads; and no request for its download counts was sent.
    The record is the own property of that name; for the name __proto__
    the assignment makes it the prototype of the table, which is what
    the table read at __proto__ gives, and the table has no such key. *)
Theorem failed_request_degraded i schedule result :
  packageNames !! i = Some packageName →
  fetchNpmMetadata packageNames net schedule = Some result →
  (DownloadsRequest packageName
     ∉ requests (run packageNames net schedule))
  ∧ ∃ r k message,
      packageNames !! k = Some packageName
      ∧ registry net k = Thrown message
      ∧ result !! packageName = Some r
      ∧ r = recommended packageName (degraded packageName message)
      ∧ (packageName ≠ protoName → own result !! packageName = Some r)
      ∧ (packageName = protoName
         → proto result = Some r ∧ own result !! packageName = None)
      ∧ name r = packageName
      ∧ description r = str "Could not fetch package data"
      ∧ description r ≠ []
      ∧ error r = Some message
      ∧ version r = []
      ∧ weeklyDownloads r = None.
Proof.
  intros Hi. unfold fetchNpmMetadata.
  destruct (failing_run schedule) as [Hreq Hphase].
  destruct (allSettled _) eqn:Hall; [|done]. intros [= <-].
  split; [done|].
  destruct (Hphase i Hi) as [Hp|[_ (k & message & Hk & Hthrown & Hd)]].
  - unfold allSettled in Hall. rewrite forallb_forall in Hall.
    apply list_elem_of_lookup_2, list_elem_of_In, Hall in Hp. done.
  - exists (recommended packageName (degraded packageName message)), k, message.
    assert (recommend (packageData (run packageNames net schedule))
              !! packageName
            = Some (recommended packageName (degraded packageName message)))
      as Hr by (by rewrite recommend_lookup, Hd).
    split_and!; try done.
    + intros Hne. by rewrite lookup_table, decide_False in Hr.
    + intros Heq. rewrite lookup_table, decide_True in Hr by done.
      split; [done|]. rewrite Heq. unfold recommend. cbn [own].
      by rewrite map_lookup_imap, own_protoName.
    + unfold recommended. by destruct (decide _).
    + unfold recommended. by destruct (decide _).
    + unfold recommended. by destruct (decide _).
    + unfold recommended. by destruct (decide _).
    + unfold recommended. by destruct (decide _).
    + unfold recommended. by destruct (decide _).
Qed.

End FailedRequest.

End FetchProperties.

Lemma sample_fetch_completes :
  Fetch.fetchNpmMetadata sampleNames sampleNetwork sampleSchedule
  = Some (Fetch.recommend
            (Fetch.packageData
               (Fetch.run sampleNames sampleNetwork sampleSchedule))).
Proof.
  unfold Fetch.fetchNpmMetadata.
  assert (Fetch.allSettled (Fetch.run sampleNames sampleNetwork sampleSchedule)
          = true) as -> by (vm_compute; reflexivity).
  reflexivity.
Defined.

(** C4.  The loop that sets the alternatives goes over the keys of the
    table, and the record of a package called __proto__ is no key: the
    assignment made it the prototype of the table.  For the names
    moment and __proto__, the second being what the extraction returns
    for the text require('__proto__'), with the registry request of the
    second failing: the record of moment gets the list date-fns, dayjs,
    luxon, moment is the only key of the table, and the degraded record
    read back under __proto__ is left without an alternatives
    property. *)
Theorem proto_record_without_alternatives :
  extractImports (str "require('__proto__')") = [Fetch.protoName]
  ∧ ∃ result moment broken,
      Fetch.fetchNpmMetadata protoNames protoNetwork protoSchedule
        = Some result
      ∧ result !! str "moment" = Some moment
      ∧ Fetch.alternatives moment
        = Some [str "date-fns"; str "dayjs"; str "luxon"]
      ∧ result !! Fetch.protoName = Some broken
      ∧ broken = Fetch.degraded Fetch.protoName notFound
      ∧ Fetch.alternatives broken = None
      ∧ Fetch.own result !! Fetch.protoName = None
      ∧ dom (Fetch.own result) = {[ str "moment" ]}.
Proof.
  split; [by vm_compute|].
  exists (Fetch.recommend
            (Fetch.packageData
               (Fetch.run protoNames protoNetwork protoSchedule))),
         (Fetch.withAlternatives (Fetch.alternativesFor (str "moment"))
            (Fetch.withWeeklyDownloads 900
               (Fetch.fetched (str "moment") (sampleBody "2.30.1")))),
         (Fetch.degraded Fetch.protoName notFound).
  split.
  { unfold Fetch.fetchNpmMetadata.
    assert (Fetch.allSettled
              (Fetch.run protoNames protoNetwork protoSchedule) = true)
      as -> by (vm_compute; reflexivity).
    reflexivity. }
  split; [vm_compute; reflexivity|].
  split; [vm_compute; reflexivity|].
  split; [vm_compute; reflexivity|].
  split; [reflexivity|].
  split; [reflexivity|].
  split; [vm_compute; reflexivity|].
  apply set_eq. intros k. rewrite elem_of_dom, elem_of_singleton.
  destruct (decide (k = str "moment")) as [->|Hne].
  - split; [done|]. intros _. vm_compute. eauto.
  - split; [|done]. intros [r Hr]. exfalso. revert Hr.
    change (Fetch.own
              (Fetch.recommend
                 (Fetch.packageData
                    (Fetch.run protoNames protoNetwork protoSchedule))))
      with (map_imap
              (λ packageName r,
                 Some (Fetch.withAlternatives
                         (Fetch.alternativesFor packageName) r))
              (Fetch.own
                 (Fetch.packageData
                    (Fetch.run protoNames protoNetwork protoSchedule)))).
    rewrite map_lookup_imap.
    assert (Fetch.own
              (Fetch.packageData
                 (Fetch.run protoNames protoNetwork protoSchedule))
            = <[str "moment" :=
                  Fetch.withWeeklyDownloads 900
                    (Fetch.fetched (str "moment") (sampleBody "2.30.1"))]> ∅)
      as -> by reflexivity.
    by rewrite lookup_insert_ne, lookup_empty.
Qed.

Lemma failed_request_degraded_witness :
  ((Fetch.DownloadsRequest (str "nosuchpkg")
      ∉ Fetch.requests (Fetch.run sampleNames sampleNetwork sampleSchedule))
   ∧ ∃ r result,
       Fetch.fetchNpmMetadata sampleNames sampleNetwork sampleSchedule
         = Some result
       ∧ result !! str "nosuchpkg" = Some r
       ∧ Fetch.own result !! str "nosuchpkg" = Some r
       ∧ Fetch.description r = str "Could not fetch package data"
       ∧ Fetch.error r = Some notFound
       ∧ Fetch.version r = []
       ∧ Fetch.weeklyDownloads r = None)
  ∧ ((Fetch.DownloadsRequest Fetch.protoName
        ∉ Fetch.requests (Fetch.run protoNames protoNetwork protoSchedule))
     ∧ ∃ r result,
         Fetch.fetchNpmMetadata protoNames protoNetwork protoSchedule
           = Some result
         ∧ result !! Fetch.protoName = Some r
         ∧ Fetch.proto result = Some r
         ∧ Fetch.own result !! Fetch.protoName = None
         ∧ Fetch.description r = str "Could not fetch package data"
         ∧ Fetch.error r = Some notFound
         ∧ Fetch.version r = []
         ∧ Fetch.weeklyDownloads r = None).
Proof.
  split.
  - assert (∀ j, sampleNames !! j = Some (str "nosuchpkg") →
                 ∃ message, Fetch.registry sampleNetwork j = Thrown message)
      as Hthrows.
    { intros [|[|[|j]]] Hj; vm_compute in Hj; try discriminate Hj.
      exists notFound. reflexivity. }
    destruct (FetchProperties.failed_request_degraded
                sampleNames sampleNetwork (str "nosuchpkg") Hthrows
                2 sampleSchedule _ eq_refl sample_fetch_completes)
      as (Hreq & r & k & message & Hk & Hthrown & Hr & _ & Hown & _ & _
          & Hdesc & _ & Herr & Hver & Hweek).
    split; [exact Hreq|].
    exists r. eexists. split; [exact sample_fetch_completes|].
    split; [exact Hr|].
    split; [apply Hown, (bool_decide_unpack _); by vm_compute|].
    split_and!; try assumption.
    rewrite Herr. f_equal.
    destruct k as [|[|[|k]]]; vm_compute in Hk; try discriminate Hk.
    vm_compute in Hthrown. by injection Hthrown as <-.
  - assert (∀ j, protoNames !! j = Some Fetch.protoName →
                 ∃ message, Fetch.registry protoNetwork j = Thrown message)
      as Hthrows.
    { intros [|[|j]] Hj; vm_compute in Hj; try discriminate Hj.
      exists notFound. reflexivity. }
    assert (Fetch.fetchNpmMetadata protoNames protoNetwork protoSchedule
            = Some (Fetch.recommend
                      (Fetch.packageData
                         (Fetch.run protoNames protoNetwork protoSchedule))))
      as E.
    { unfold Fetch.fetchNpmMetadata.
      assert (Fetch.allSettled
                (Fetch.run protoNames protoNetwork protoSchedule) = true)
        as -> by (vm_compute; reflexivity).
      reflexivity. }
    destruct (FetchProperties.failed_request_degraded
                protoNames protoNetwork Fetch.protoName Hthrows
                1 protoSchedule _ eq_refl E)
      as (Hreq & r & k & message & Hk & Hthrown & Hr & _ & _ & Hproto & _
          & Hdesc & _ & Herr & Hver & Hweek).
    destruct (Hproto eq_refl) as [Hp Ho].
    split; [exact Hreq|].
    exists r. eexists. split; [exact E|].
    split_and!; try assumption.
    rewrite Herr. f_equal.
    destruct k as [|[|k]]; vm_compute in Hk; try discriminate Hk.
    vm_compute in Hthrown. by injection Hthrown as <-.
Defined.

(** ** The extractor, further *)

Lemma elem_of_addImport x imports regexResult :
  x ∈ addImport imports regexResult
  ↔ x ∈ imports
    ∨ ∃ whole pkg, regexResult = Some (whole, pkg) ∧ pkg ≠ []
                   ∧ ¬ pathSpecifier pkg ∧ x = baseName pkg.
Proof.
  unfold addImport, pathSpecifier.
  destruct regexResult as [[whole pkg]|].
  2: { split; [by left|]. by intros [?|(w & p & [=] & _)]. }
  case_bool_decide as Hne.
  2: { split; [by left|].
       intros [?|(w & p & [= <- <-] & ? & _)]; [done|]. by destruct Hne. }
  destruct (startsWith (str ".") pkg) eqn:E1; cbn [negb andb].
  { split; [by left|].
    intros [?|(w & p & [= <- <-] & _ & Hnp & _)]; [done|].
    destruct Hnp. left. exact E1. }
  destruct (startsWith (str "/") pkg) eqn:E2; cbn [negb andb].
  { split; [by left|].
    intros [?|(w & p & [= <- <-] & _ & Hnp & _)]; [done|].
    destruct Hnp. right. exact E2. }
  rewrite elem_of_set_add. split.
  - intros [->|?]; [|by left].
    right. exists whole, pkg. split_and!; try done. intros [?|?]; congruence.
  - intros [?|(w & p & [= <- <-] & _ & _ & ->)]; [by right|by left].
Qed.

Lemma elem_of_detect x outer inner content imports :
  x ∈ detect outer inner content imports
  ↔ x ∈ imports
    ∨ ∃ pkg, pkg ∈ captured outer inner content ∧ pkg ≠ []
             ∧ ¬ pathSpecifier pkg ∧ x = baseName pkg.
Proof.
  unfold detect, captured.
  generalize (Regex.matchAll outer content) as ms. intros ms. revert imports.
  induction ms as [|m ms IH]; intros imports; simpl.
  - split; [by left|]. by intros [?|(pkg & []%elem_of_nil & _)].
  - rewrite IH, elem_of_addImport. split.
    + intros [[?|(w & pkg & E & ? & ? & ->)]|(pkg & Hin & ? & ? & ->)];
        [by left| |].
      * right. exists pkg. rewrite E. simpl. split_and!; try done. by left.
      * right. exists pkg. split_and!; try done.
        destruct (Regex.exec inner m); simpl; [by right|done].
    + intros [?|(pkg & Hin & ? & ? & ->)]; [by left; left|].
      destruct (Regex.exec inner m) as [[w p]|] eqn:E; simpl in Hin.
      * apply elem_of_cons in Hin as [->|Hin].
        -- left. right. by exists w, p.
        -- right. by exists pkg.
      * right. by exists pkg.
Qed.

Lemma elem_of_extractImports (content p : jsstring) :
  p ∈ extractImports content
  ↔ ∃ pkg, pkg ∈ capturedSpecifiers content ∧ pkg ≠ []
           ∧ ¬ pathSpecifier pkg ∧ p = baseName pkg.
Proof.
  unfold extractImports, capturedSpecifiers. rewrite !elem_of_detect.
  rewrite elem_of_nil. split.
  - intros [[[[]|(pkg & ? & ?)]|(pkg & ? & ?)]|(pkg & ? & ?)];
      exists pkg; rewrite !elem_of_app; tauto.
  - intros (pkg & [?|[?|?]%elem_of_app]%elem_of_app & ?); eauto 10.
Qed.

Lemma split_app_head p tl seg :
  slash ∉ p → head (split slash tl) = Some seg →
  head (split slash (p ++ tl)) = Some (p ++ seg).
Proof.
  intros Hp Htl. induction p as [|c p IH]; [done|].
  apply not_elem_of_cons in Hp as [Hc Hp]. specialize (IH Hp). simpl.
  destruct (decide (c = slash)); [done|].
  destruct (split slash (p ++ tl)) as [|s0 ss]; [done|].
  simpl in *. by injection IH as ->.
Qed.

(** X2.  The base name of a specifier is its first path segment: a
    specifier made of a slash-free segment followed by a sub-path
    collapses to the segment, and a slash-free specifier is its own base
    name. *)
Theorem baseName_of_segment (p rest : jsstring) :
  slash ∉ p → baseName (p ++ slash :: rest) = p ∧ baseName p = p.
Proof.
  intros Hp. unfold baseName. split.
  - rewrite (split_app_head p (slash :: rest) []); [|done|].
    + simpl. by rewrite app_nil_r.
    + done.
  - rewrite <- (app_nil_r p) at 1.
    rewrite (split_app_head p [] []); [|done..].
    simpl. by rewrite app_nil_r.
Qed.

(** ** The matcher *)

Module RegexProperties.
Import Regex.

Lemma matchHere_cons a re s :
  matchHere (a :: re) s
  = match s with
    | [] => None
    | c :: s' =>
        if accepts (cls a) c then
          match rep a with
          | Once => consume a c <$> matchHere re s'
          | Plus =>
              match matchHere (a :: re) s' with
              | Some r => Some (consume a c r)
              | None => consume a c <$> matchHere re s'
              end
          end
        else None
    end.
Proof.
  destruct a as [k [] g], s as [|c s']; try done; simpl;
    by destruct (accepts k c).
Qed.

Lemma accepts_quoteChar c : accepts (cls quoteChar) c = true ↔ isQuote c.
Proof.
  unfold isQuote. simpl.
  rewrite bool_decide_eq_true, !elem_of_cons, elem_of_nil. tauto.
Qed.

Lemma accepts_specifier c : accepts (cls specifier) c = true ↔ ¬ isQuote c.
Proof.
  unfold isQuote. simpl.
  rewrite bool_decide_eq_true, !elem_of_cons, elem_of_nil. tauto.
Qed.

Lemma matchHere_needs_quote re s :
  quoteChar ∈ re → Forall (λ c, ¬ isQuote c) s → matchHere re s = None.
Proof.
  intros Hre. revert s.
  induction re as [|a re IH]; [by apply elem_of_nil in Hre|].
  intros s Hs. induction Hs as [|c s Hc Hs IHs]; rewrite matchHere_cons; [done|].
  apply elem_of_cons in Hre as [<-|Hre].
  - destruct (accepts (cls quoteChar) c) eqn:E; [|done].
    by apply accepts_quoteChar in E.
  - destruct (accepts (cls a) c); [|done].
    rewrite (IH Hre s Hs). destruct (rep a); [done|]. by rewrite IHs.
Qed.

Lemma matchAllFrom_needs_quote re s :
  quoteChar ∈ re → Forall (λ c, ¬ isQuote c) s →
  ∀ skip, matchAllFrom re skip s = [].
Proof.
  intros Hre Hs. induction Hs as [|c s Hc Hs IH]; intros skip; simpl.
  - rewrite (matchHere_needs_quote re []); [by destruct skip|done|done].
  - destruct skip; [|done].
    rewrite (matchHere_needs_quote re (c :: s)); [done|done|by constructor].
Qed.

End RegexProperties.

(** X3.  A text without a quote character references no package: each
    of the three patterns needs one. *)
Theorem no_quote_no_import (content : jsstring) :
  squote ∉ content → dquote ∉ content → extractImports content = [].
Proof.
  intros Hs Hd.
  assert (Forall (λ c, ¬ isQuote c) content) as Hq.
  { apply Forall_forall. intros c Hc [->| ->]; done. }
  unfold extractImports, detect, Regex.matchAll.
  rewrite !RegexProperties.matchAllFrom_needs_quote; try done.
  - unfold Regex.dynamicImportRe. rewrite !elem_of_app, !elem_of_cons. tauto.
  - unfold Regex.importFromRe. rewrite !elem_of_app, !elem_of_cons. tauto.
  - unfold Regex.requireRe. rewrite !elem_of_app, !elem_of_cons. tauto.
Qed.

Module CallPattern.
Import Regex RegexProperties.

Local Abbreviation litRe l := ((λ c, Atom (Lit c) Once false) <$> l).
Local Abbreviation noQuote := (Forall (λ c, ¬ isQuote c)).

Lemma lit_match re l s :
  matchHere (litRe l ++ re) (l ++ s)
  = (λ r, (l ++ r.1, r.2)) <$> matchHere re s.
Proof.
  induction l as [|a l IH]; cbn [fmap list_fmap app].
  - by destruct (matchHere re s) as [[m g]|].
  - rewrite matchHere_cons. cbn [cls rep accepts].
    rewrite bool_decide_true by done.
    rewrite IH. by destruct (matchHere re s) as [[m g]|].
Qed.

Lemma lit_match_inv re l s r :
  matchHere (litRe l ++ re) s = Some r →
  ∃ s' r', s = l ++ s' ∧ matchHere re s' = Some r' ∧ r = (l ++ r'.1, r'.2).
Proof.
  revert s r. induction l as [|a l IH]; intros s r; cbn [fmap list_fmap app].
  - intros H. exists s, r. by destruct r.
  - rewrite matchHere_cons. destruct s as [|c s]; [done|].
    cbn [cls rep accepts].
    case_bool_decide as Hc; [subst c|done].
    destruct (matchHere (litRe l ++ re) s) as [r0|] eqn:E; [|done].
    intros [= <-]. destruct (IH _ _ E) as (s' & r' & -> & Hr' & ->).
    by exists s', r'.
Qed.

Lemma quote_match re q s :
  isQuote q →
  matchHere (quoteChar :: re) (q :: s)
  = (λ r, (q :: r.1, r.2)) <$> matchHere re s.
Proof.
  intros Hq. rewrite matchHere_cons.
  rewrite (proj2 (accepts_quoteChar q) Hq). simpl.
  by destruct (matchHere re s) as [[m g]|].
Qed.

Lemma quote_match_inv re s r :
  matchHere (quoteChar :: re) s = Some r →
  ∃ q s' r', isQuote q ∧ s = q :: s' ∧ matchHere re s' = Some r'
             ∧ r = (q :: r'.1, r'.2).
Proof.
  rewrite matchHere_cons. destruct s as [|c s]; [done|].
  destruct (accepts (cls quoteChar) c) eqn:E; [|done].
  apply accepts_quoteChar in E. simpl.
  destruct (matchHere re s) as [r'|] eqn:E'; [|done].
  intros [= <-]. by exists c, s, r'.
Qed.

Lemma specifier_match re g q s :
  g ≠ [] → noQuote g → isQuote q →
  matchHere (specifier :: quoteChar :: re) (g ++ q :: s)
  = (λ r, (g ++ q :: r.1, g ++ r.2)) <$> matchHere re s.
Proof.
  intros Hne Hg Hq. induction Hg as [|c g Hc Hg IH]; [done|]. clear Hne.
  rewrite <- app_comm_cons, matchHere_cons.
  rewrite (proj2 (accepts_specifier c) Hc). simpl rep. cbv iota.
  destruct g as [|c' g].
  - simpl app.
    assert (matchHere (specifier :: quoteChar :: re) (q :: s) = None) as ->.
    { rewrite matchHere_cons.
      destruct (accepts (cls specifier) q) eqn:E; [|done].
      by apply accepts_specifier in E. }
    rewrite quote_match by done.
    by destruct (matchHere re s) as [[m g]|].
  - rewrite IH by done.
    destruct (matchHere re s) as [[m g0]|]; [done|]. cbn -[matchHere].
    rewrite matchHere_cons.
    destruct (accepts (cls quoteChar) c') eqn:E; [|done].
    apply accepts_quoteChar in E. by apply Forall_cons in Hg as [? _].
Qed.

Lemma specifier_match_inv re s r :
  matchHere (specifier :: quoteChar :: re) s = Some r →
  ∃ g q s' r', g ≠ [] ∧ noQuote g ∧ isQuote q ∧ s = g ++ q :: s'
               ∧ matchHere re s' = Some r'
               ∧ r = (g ++ q :: r'.1, g ++ r'.2).
Proof.
  revert r. induction s as [|c s IH]; intros r; rewrite matchHere_cons; [done|].
  destruct (accepts (cls specifier) c) eqn:E; [|done].
  apply accepts_specifier in E. simpl rep. cbv iota.
  destruct (matchHere (specifier :: quoteChar :: re) s) as [r0|] eqn:E0.
  - intros [= <-].
    destruct (IH _ eq_refl) as (g & q & s' & r' & _ & Hg & Hq & -> & Hr' & ->).
    exists (c :: g), q, s', r'. split_and!; try done. by constructor.
  - destruct (matchHere (quoteChar :: re) s) as [r1|] eqn:E1; [|done].
    intros [= <-].
    destruct (quote_match_inv _ _ _ E1) as (q & s' & r' & Hq & -> & Hr' & ->).
    exists [c], q, s', r'. split_and!; try done. by repeat constructor.
Qed.

Lemma paren_match post : matchHere (litRe [41]) (41 :: post) = Some ([41], []).
Proof. cbn [fmap list_fmap]. by rewrite matchHere_cons. Qed.

Lemma paren_match_inv s r :
  matchHere (litRe [41]) s = Some r → ∃ rest, s = 41 :: rest ∧ r = ([41], []).
Proof.
  cbn [fmap list_fmap]. rewrite matchHere_cons.
  destruct s as [|c s]; [done|]. cbn [cls rep accepts].
  case_bool_decide as Hc; [subst c|done]. intros [= <-]. by exists s.
Qed.

Section Call.

Variable R : jsstring.
Variable r0 : N.
Variable R' : jsstring.
Hypothesis R_head : R = r0 :: R'.
Hypothesis r0_not_paren : r0 ≠ 41.
Hypothesis R_noQuote : noQuote R.

Local Abbreviation callRe :=
  (litRe R ++ [quoteChar; specifier; quoteChar] ++ litRe [41]).

Lemma call_match q1 p q2 post :
  isQuote q1 → isQuote q2 → p ≠ [] → noQuote p →
  matchHere callRe (R ++ q1 :: p ++ q2 :: 41 :: post)
  = Some (R ++ q1 :: p ++ [q2; 41], p).
Proof.
  intros H1 H2 Hne Hp.
  rewrite lit_match. cbn [app]. rewrite quote_match by done.
  rewrite specifier_match by done.
  rewrite paren_match. simpl. by rewrite app_nil_r.
Qed.

Lemma call_match_inv s m g :
  matchHere callRe s = Some (m, g) →
  ∃ q1 q2 rest,
    isQuote q1 ∧ isQuote q2 ∧ g ≠ [] ∧ noQuote g
    ∧ s = R ++ q1 :: g ++ q2 :: 41 :: rest
    ∧ m = R ++ q1 :: g ++ [q2; 41].
Proof.
  intros H.
  apply lit_match_inv in H as (s1 & r1 & -> & H & [= -> ->]).
  cbn [app] in H.
  apply quote_match_inv in H as (q1 & s2 & r2 & Hq1 & -> & H & ->).
  apply specifier_match_inv in H
    as (g' & q2 & s3 & r3 & Hne & Hg & Hq2 & -> & H & ->).
  apply paren_match_inv in H as (rest & -> & ->). simpl.
  exists q1, q2, rest. rewrite app_nil_r. by split_and!.
Qed.

Lemma no_overlap pre q p q' post m g :
  pre ≠ [] → isQuote q → p ≠ [] → head p ≠ Some 41 →
  matchHere callRe (pre ++ R ++ q :: p ++ q' :: 41 :: post) = Some (m, g) →
  (length m ≤ length pre)%nat.
Proof.
  intros Hpre Hq Hpne Hp0 H.
  destruct (call_match_inv _ _ _ H)
    as (q1 & q2 & rest & Hq1 & Hq2 & Hg & Hgq & E & ->).
  set (L := pre ++ R ++ q :: p ++ q' :: 41 :: post) in *.
  set (A := (length R + 1 + length g)%nat).
  assert (length (R ++ q1 :: g) = A) as HA.
  { rewrite length_app. simpl. lia. }
  assert (∀ i c, L !! i = Some c → (i < A)%nat → i ≠ length R →
                 ¬ isQuote c) as F1.
  { intros i c Hi Hlt Hne. rewrite E in Hi.
    destruct (decide (i < length R)%nat) as [Hlt'|Hge].
    - rewrite lookup_app_l in Hi by done.
      by eapply (proj1 (Forall_lookup _ _) R_noQuote).
    - rewrite lookup_app_r in Hi by lia.
      destruct (i - length R)%nat as [|k] eqn:Ek; [lia|]. simpl in Hi.
      rewrite lookup_app_l in Hi by (unfold A in Hlt; lia).
      by eapply (proj1 (Forall_lookup _ _) Hgq). }
  assert (L = (R ++ q1 :: g) ++ q2 :: 41 :: rest) as E'.
  { by rewrite E, <- app_assoc. }
  assert (L !! A = Some q2) as F2.
  { rewrite E', lookup_app_r by lia.
    by replace (_ - _)%nat with 0%nat by lia. }
  assert (L !! S A = Some 41) as F3.
  { rewrite E', lookup_app_r by lia.
    by replace (_ - _)%nat with 1%nat by lia. }
  assert (∀ j c, R !! j = Some c → L !! (length pre + j)%nat = Some c) as G1.
  { intros j c Hj. unfold L. rewrite lookup_app_r by lia.
    replace (_ - _)%nat with j by lia.
    rewrite lookup_app_l; [done|by eapply lookup_lt_Some]. }
  assert (L !! (length pre + length R)%nat = Some q) as G2.
  { unfold L. rewrite lookup_app_r by lia.
    replace (_ - _)%nat with (length R) by lia.
    rewrite lookup_app_r by lia. by replace (_ - _)%nat with 0%nat by lia. }
  assert (L !! S (length pre + length R) = head p) as G3.
  { unfold L. rewrite lookup_app_r by lia.
    replace (_ - _)%nat with (S (length R)) by lia.
    rewrite lookup_app_r by lia. replace (_ - _)%nat with 1%nat by lia.
    simpl. by destruct p. }
  assert (0 < length pre)%nat as Hpos by (destruct pre; [done|simpl; lia]).
  rewrite length_app. simpl. rewrite length_app. simpl.
  destruct (decide (A + 2 ≤ length pre)%nat) as [|Hover]; [unfold A in *; lia|].
  exfalso.
  destruct (decide (S A = length pre)) as [E1|N1].
  { specialize (G1 0%nat r0). rewrite R_head in G1. specialize (G1 eq_refl).
    rewrite Nat.add_0_r, <- E1, F3 in G1. by injection G1 as <-. }
  destruct (decide (A < length pre + length R)%nat) as [E2|N2].
  { destruct (lookup_lt_is_Some_2 R (A - length pre)%nat) as [c Hc]; [lia|].
    pose proof (G1 _ _ Hc) as Hc'.
    replace (length pre + (A - length pre))%nat with A in Hc' by lia.
    rewrite F2 in Hc'. injection Hc' as <-.
    by eapply (proj1 (Forall_lookup _ _) R_noQuote). }
  destruct (decide (A = length pre + length R)%nat) as [E3|N3].
  { rewrite <- E3, F3 in G3. by destruct Hp0. }
  eapply (F1 _ _ G2); [lia|lia|done].
Qed.

Lemma matchAllFrom_cons re c s :
  matchAllFrom re 0 (c :: s)
  = match matchHere re (c :: s) with
    | Some r => r.1 :: matchAllFrom re (pred (length r.1)) s
    | None => matchAllFrom re 0 s
    end.
Proof. done. Qed.

Lemma call_found pre q p q' post :
  isQuote q → isQuote q' → p ≠ [] → noQuote p → head p ≠ Some 41 →
  ∀ skip, (skip ≤ length pre)%nat →
    R ++ q :: p ++ [q'; 41]
    ∈ matchAllFrom callRe skip (pre ++ R ++ q :: p ++ q' :: 41 :: post).
Proof.
  intros Hq Hq' Hne Hp Hp0.
  induction pre as [|c pre IH]; intros skip Hskip.
  - assert (skip = 0%nat) as -> by (simpl in Hskip; lia).
    rewrite app_nil_l.
    pose proof (call_match q p q' post Hq Hq' Hne Hp) as Hm.
    remember (R ++ q :: p ++ q' :: 41 :: post) as t eqn:Et.
    destruct t as [|c t]; [by rewrite R_head in Et|].
    rewrite matchAllFrom_cons, Hm. by left.
  - change ((c :: pre) ++ R ++ q :: p ++ q' :: 41 :: post)
      with (c :: (pre ++ R ++ q :: p ++ q' :: 41 :: post)).
    destruct skip as [|k].
    + rewrite matchAllFrom_cons.
      destruct (matchHere callRe (c :: pre ++ _)) as [[m g]|] eqn:E.
      * right. apply IH.
        change (c :: pre ++ R ++ q :: p ++ q' :: 41 :: post)
          with ((c :: pre) ++ R ++ q :: p ++ q' :: 41 :: post) in E.
        apply no_overlap in E; try done. simpl in *. lia.
      * apply IH. lia.
    + cbn [matchAllFrom]. apply IH. simpl in Hskip. lia.
Qed.

Lemma exec_here re s r : matchHere re s = Some r → exec re s = Some r.
Proof. intros H. destruct s; simpl; by rewrite H. Qed.

Lemma call_captured pre q p q' post :
  isQuote q → isQuote q' → p ≠ [] → noQuote p → head p ≠ Some 41 →
  p ∈ captured callRe callRe (pre ++ R ++ q :: p ++ q' :: 41 :: post).
Proof.
  intros Hq Hq' Hne Hp Hp0. unfold captured.
  apply list_elem_of_omap. exists (R ++ q :: p ++ [q'; 41]). split.
  - unfold matchAll. apply call_found; try done. lia.
  - rewrite (exec_here _ _ (R ++ q :: p ++ [q'; 41], p)); [done|].
    by apply (call_match q p q' []).
Qed.

End Call.
End CallPattern.


Lemma exec_inv re s r :
  Regex.exec re s = Some r →
  ∃ skipped s', s = skipped ++ s' ∧ Regex.matchHere re s' = Some r.
Proof.
  induction s as [|c s IH]; simpl.
  - destruct (Regex.matchHere re []) eqn:E; [|done].
    intros [= <-]. by exists [], [].
  - destruct (Regex.matchHere re (c :: s)) eqn:E.
    + intros [= <-]. by exists [], (c :: s).
    + intros (sk & s' & -> & H)%IH. by exists (c :: sk), s'.
Qed.

Lemma noQuote_str_require : Forall (λ c, ¬ isQuote c) (str "require(").
Proof. repeat constructor; by intros [|]. Qed.
Lemma noQuote_str_import : Forall (λ c, ¬ isQuote c) (str "import(").
Proof. repeat constructor; by intros [|]. Qed.

Lemma captured_call R r0 R' content pkg :
  R = r0 :: R' → r0 ≠ 41 → Forall (λ c, ¬ isQuote c) R →
  let re := ((λ c, Regex.Atom (Regex.Lit c) Regex.Once false) <$> R)
              ++ [Regex.quoteChar; Regex.specifier; Regex.quoteChar]
              ++ ((λ c, Regex.Atom (Regex.Lit c) Regex.Once false) <$> [41]) in
  pkg ∈ captured re re content → pkg ≠ [] ∧ Forall (λ c, ¬ isQuote c) pkg.
Proof.
  intros HR Hr0 HRq re. unfold captured.
  intros (m & _ & Hexec)%list_elem_of_omap.
  destruct (Regex.exec re m) as [[w g]|] eqn:E; [|done].
  injection Hexec as <-.
  apply exec_inv in E as (sk & s' & _ & E).
  apply (CallPattern.call_match_inv R) in E as (q1 & q2 & rest & _ & _ & ? & ? & _).
  done.
Qed.

Lemma captured_from outer content pkg :
  pkg ∈ captured outer Regex.fromRe content →
  pkg ≠ [] ∧ Forall (λ c, ¬ isQuote c) pkg.
Proof.
  unfold captured. intros (m & _ & Hexec)%list_elem_of_omap.
  destruct (Regex.exec Regex.fromRe m) as [[w g]|] eqn:E; [|done].
  injection Hexec as <-.
  apply exec_inv in E as (sk & s' & _ & E).
  unfold Regex.fromRe, Regex.lit in E.
  apply CallPattern.lit_match_inv in E as (s1 & r1 & -> & E & [= -> ->]).
  cbn [app] in E.
  apply CallPattern.quote_match_inv in E as (q1 & s2 & r2 & _ & -> & E & ->).
  apply CallPattern.specifier_match_inv in E
    as (g' & q2 & s3 & r3 & Hne & Hg & _ & -> & E & ->).
  simpl in E. injection E as <-. simpl. by rewrite app_nil_r.
Qed.

Lemma capturedSpecifiers_wellformed content pkg :
  pkg ∈ capturedSpecifiers content →
  pkg ≠ [] ∧ Forall (λ c, ¬ isQuote c) pkg.
Proof.
  unfold capturedSpecifiers. rewrite !elem_of_app. intros [H|[H|H]].
  - by apply (captured_call (str "require(") 114 (str "equire(")) in H;
      [|done|done|apply noQuote_str_require].
  - by apply captured_from in H.
  - by apply (captured_call (str "import(") 105 (str "mport(")) in H;
      [|done|done|apply noQuote_str_import].
Qed.

Lemma startsWith_paren p : startsWith (str ")") p = false → head p ≠ Some 41.
Proof.
  destruct p as [|c p]; [done|]. intros H [= ->]. by vm_compute in H.
Qed.

(** X4.  A call require(Q p Q), Q a quote of either kind, is detected
    wherever it stands in the text and whatever surrounds it, provided
    the specifier p is not empty, holds no quote and does not begin with a
    closing parenthesis: unless p names a path, its base name is in the
    result. *)
Theorem require_call_detected (pre p post : jsstring) (q q' : N) :
  isQuote q → isQuote q' →
  p ≠ [] → squote ∉ p → dquote ∉ p → startsWith (str ")") p = false →
  ¬ pathSpecifier p →
  baseName p
  ∈ extractImports (pre ++ str "require(" ++ [q] ++ p ++ [q'] ++ str ")" ++ post).
Proof.
  intros Hq Hq' Hne Hs Hd Hparen Hpath.
  apply elem_of_extractImports. exists p. split_and!; try done.
  unfold capturedSpecifiers. apply elem_of_app. left.
  apply (CallPattern.call_captured (str "require(") 114 (str "equire(")); try done.
  - apply noQuote_str_require.
  - apply Forall_forall. intros c Hc [->| ->]; done.
  - by apply startsWith_paren.
Qed.

(** X5.  The same for a dynamic import(Q p Q). *)
Theorem dynamic_import_detected (pre p post : jsstring) (q q' : N) :
  isQuote q → isQuote q' →
  p ≠ [] → squote ∉ p → dquote ∉ p → startsWith (str ")") p = false →
  ¬ pathSpecifier p →
  baseName p
  ∈ extractImports (pre ++ str "import(" ++ [q] ++ p ++ [q'] ++ str ")" ++ post).
Proof.
  intros Hq Hq' Hne Hs Hd Hparen Hpath.
  apply elem_of_extractImports. exists p. split_and!; try done.
  unfold capturedSpecifiers. rewrite !elem_of_app. right. right.
  apply (CallPattern.call_captured (str "import(") 105 (str "mport(")); try done.
  - apply noQuote_str_import.
  - apply Forall_forall. intros c Hc [->| ->]; done.
  - by apply startsWith_paren.
Qed.

Module StaticPattern.
Import Regex RegexProperties CallPattern.

Local Abbreviation litRe l := ((λ c, Atom (Lit c) Once false) <$> l).
Local Abbreviation noQuote := (Forall (λ c, ¬ isQuote c)).
Local Abbreviation oneLine := (Forall (λ c, c ∉ lineTerminators)).
Local Abbreviation anyPlus := (Atom AnyChar Plus false).
Local Abbreviation quoted := ([quoteChar; specifier; quoteChar]).

Lemma anyPlus_match_inv re s r :
  matchHere (anyPlus :: re) s = Some r →
  ∃ x s' r', x ≠ [] ∧ oneLine x ∧ s = x ++ s'
             ∧ matchHere re s' = Some r' ∧ r = (x ++ r'.1, r'.2).
Proof.
  revert r. induction s as [|c s IH]; intros r; rewrite matchHere_cons; [done|].
  cbn [cls rep accepts]. case_bool_decide as Hc; [|done].
  destruct (matchHere (anyPlus :: re) s) as [r0|] eqn:E0.
  - intros [= <-].
    destruct (IH _ eq_refl) as (x & s' & r' & _ & Hx & -> & Hr' & ->).
    exists (c :: x), s', r'. split_and!; try done. by constructor.
  - destruct (matchHere re s) as [r1|] eqn:E1; [|done].
    intros [= <-]. exists [c], s, r1. split_and!; try done.
    by repeat constructor.
Qed.

Lemma anyPlus_match re x s' :
  x ≠ [] → oneLine x → is_Some (matchHere re s') →
  is_Some (matchHere (anyPlus :: re) (x ++ s')).
Proof.
  intros Hne Hx Hs'. induction Hx as [|c x Hc Hx IH]; [done|]. clear Hne.
  rewrite <- app_comm_cons, matchHere_cons. cbn [cls rep accepts].
  rewrite bool_decide_true by done.
  destruct (matchHere (anyPlus :: re) (x ++ s')) as [r|] eqn:E; [done|].
  destruct x as [|c' x].
  - simpl in *. by destruct Hs' as [r ->].
  - destruct IH as [r Hr]; [done|]. by rewrite Hr in E.
Qed.

Lemma quoted_match q p q' post :
  isQuote q → isQuote q' → p ≠ [] → noQuote p →
  matchHere quoted (q :: p ++ q' :: post) = Some (q :: p ++ [q'], p).
Proof.
  intros Hq Hq' Hne Hp. rewrite quote_match by done.
  rewrite specifier_match by done. simpl. by rewrite app_nil_r.
Qed.

Lemma quoted_match_inv s r :
  matchHere quoted s = Some r →
  ∃ qa sp qb rest, isQuote qa ∧ isQuote qb ∧ sp ≠ [] ∧ noQuote sp
                   ∧ s = qa :: sp ++ qb :: rest ∧ r = (qa :: sp ++ [qb], sp).
Proof.
  intros H.
  apply quote_match_inv in H as (qa & s2 & r2 & Hqa & -> & H & ->).
  apply specifier_match_inv in H
    as (sp & qb & s3 & r3 & Hne & Hsp & Hqb & -> & H & ->).
  simpl in H. injection H as <-. simpl. rewrite app_nil_r.
  by exists qa, sp, qb, s3.
Qed.

(** Two quote-free texts, each followed by a quote, that start the same
    text are the same. *)
Lemma noQuote_prefix_eq a b qa qb ra rb :
  noQuote a → noQuote b → isQuote qa → isQuote qb →
  a ++ qa :: ra = b ++ qb :: rb → a = b ∧ qa = qb ∧ ra = rb.
Proof.
  intros Ha. revert b. induction Ha as [|c a Hc Ha IH]; intros b Hb Hqa Hqb.
  - destruct Hb as [|d b Hd Hb]; simpl; [by intros [= -> ->]|].
    intros [= -> _]. done.
  - destruct Hb as [|d b Hd Hb]; simpl; [intros [= -> _]; done|].
    intros [= -> E]. destruct (IH b Hb Hqa Hqb E) as (-> & -> & ->). done.
Qed.

Section Statement.

Variables (b p post : jsstring) (q q' : N).
Hypothesis q_quote : isQuote q.
Hypothesis q'_quote : isQuote q'.
Hypothesis b_nonempty : b ≠ [].
Hypothesis b_noQuote : noQuote b.
Hypothesis b_oneLine : oneLine b.
Hypothesis p_nonempty : p ≠ [].
Hypothesis p_noQuote : noQuote p.

Local Abbreviation kw := (str "import ").
Local Abbreviation sep := (str " from ").
Local Abbreviation statement := (kw ++ b ++ sep ++ q :: p ++ [q']).

Lemma noQuote_kw : noQuote kw.
Proof. repeat constructor; by intros [|]. Qed.
Lemma noQuote_sep : noQuote sep.
Proof. repeat constructor; by intros [|]. Qed.

(** The pattern matches where the statement starts. *)
Lemma statement_match :
  is_Some (matchHere importFromRe (kw ++ b ++ sep ++ q :: p ++ q' :: post)).
Proof.
  unfold importFromRe, lit. rewrite lit_match. apply fmap_is_Some.
  cbn [app]. apply anyPlus_match; [done..|].
  rewrite lit_match. apply fmap_is_Some.
  by rewrite quoted_match.
Qed.

(** A match that starts in a quote-free text before the statement, or
    where it starts, reaches past the statement's closing quote. *)
Lemma match_covers pre m g :
  noQuote pre →
  matchHere importFromRe (pre ++ kw ++ b ++ sep ++ q :: p ++ q' :: post)
    = Some (m, g) →
  ∃ more, m = (pre ++ kw ++ b ++ sep) ++ q :: p ++ q' :: more.
Proof.
  intros Hpre H. unfold importFromRe, lit in H.
  apply lit_match_inv in H as (s1 & r1 & E & H & [= -> ->]).
  cbn [app] in H.
  apply anyPlus_match_inv in H as (x & s2 & r2 & _ & _ & -> & H & ->).
  apply lit_match_inv in H as (s3 & r3 & -> & H & ->).
  apply quoted_match_inv in H
    as (qa & sp & qb & rest & Hqa & Hqb & _ & Hsp & -> & ->).
  change (∃ more, kw ++ x ++ sep ++ qa :: sp ++ [qb]
                  = (pre ++ kw ++ b ++ sep) ++ q :: p ++ q' :: more).
  set (W := pre ++ kw ++ b ++ sep).
  set (U := kw ++ x ++ sep).
  assert (noQuote W) as HW.
  { unfold W. rewrite !Forall_app.
    split_and!; [done|apply noQuote_kw|done|apply noQuote_sep]. }
  assert (W ++ q :: p ++ q' :: post = U ++ qa :: sp ++ qb :: rest) as E'.
  { unfold W, U. by rewrite <- !app_assoc. }
  replace (kw ++ x ++ sep ++ qa :: sp ++ [qb])
    with (U ++ qa :: sp ++ [qb]) by (unfold U; by rewrite <- !app_assoc).
  clear E. clearbody W U.
  destruct (decide (length U < length W)%nat) as [Hlt|Hge].
  { exfalso.
    assert ((W ++ q :: p ++ q' :: post) !! length U = Some qa) as Hl.
    { rewrite E', lookup_app_r by lia.
      by replace (_ - _)%nat with 0%nat by lia. }
    rewrite lookup_app_l in Hl by done.
    by eapply (proj1 (Forall_lookup _ _) HW). }
  destruct (decide (length U = length W)) as [Heq|Hne].
  { apply app_inj_1 in E' as [<- [= <- E']]; [|done].
    apply noQuote_prefix_eq in E' as (-> & -> & ->); try done.
    by exists []. }
  assert (length W + 1 + length p ≤ length U)%nat as Hlong.
  { destruct (decide (length W + 1 + length p ≤ length U)%nat); [done|].
    exfalso.
    assert ((W ++ q :: p ++ q' :: post) !! length U = Some qa) as Hl.
    { rewrite E', lookup_app_r by lia.
      by replace (_ - _)%nat with 0%nat by lia. }
    rewrite lookup_app_r in Hl by lia.
    destruct (length U - length W)%nat as [|k] eqn:Ek; [lia|]. simpl in Hl.
    rewrite lookup_app_l in Hl by lia.
    by eapply (proj1 (Forall_lookup _ _) p_noQuote). }
  exists (drop (length W + 2 + length p) (U ++ qa :: sp ++ [qb])).
  assert (take (length W + 2 + length p) (U ++ qa :: sp ++ [qb])
          = W ++ q :: p ++ [q']) as Ht.
  { transitivity (take (length W + 2 + length p)
                    ((U ++ qa :: sp ++ [qb]) ++ rest)).
    - symmetry. apply take_app_le.
      rewrite length_app. simpl. lia.
    - rewrite <- app_assoc. cbn [app]. rewrite <- app_assoc. cbn [app].
      rewrite <- E'.
      replace (W ++ q :: p ++ q' :: post)
        with ((W ++ q :: p ++ [q']) ++ post)
        by (rewrite <- app_assoc; cbn [app]; by rewrite <- app_assoc).
      rewrite take_app_length'; [done|].
      rewrite length_app. simpl. rewrite length_app. simpl. lia. }
  rewrite <- (take_drop (length W + 2 + length p) (U ++ qa :: sp ++ [qb]))
    at 1.
  rewrite Ht, <- app_assoc. cbn [app]. by rewrite <- app_assoc.
Qed.

Local Abbreviation word := (str "from ").

(** The search inside a match finds the statement's specifier. *)
Lemma exec_from front more :
  noQuote front →
  ∃ w, exec fromRe (front ++ word ++ q :: p ++ q' :: more) = Some (w, p).
Proof.
  intros Hfront. induction Hfront as [|c front Hc Hfront IH].
  - eexists. apply exec_here. unfold fromRe, lit.
    rewrite app_nil_l, lit_match, quoted_match by done. done.
  - destruct IH as [w IH]. exists w.
    rewrite <- app_comm_cons. cbn [exec].
    destruct (matchHere fromRe (c :: front ++ word ++ q :: p ++ q' :: more))
      as [r|] eqn:E; [exfalso|done].
    unfold fromRe, lit in E.
    apply lit_match_inv in E as (s1 & r1 & Es & H & Hr).
    apply quoted_match_inv in H
      as (qa & sp & qb & rest & Hqa & Hqb & Hne & Hsp & -> & Hr1).
    assert (noQuote ((c :: front) ++ word)) as HW.
    { rewrite Forall_app. split; [by constructor|].
      repeat constructor; by intros [|]. }
    assert (((c :: front) ++ word) !! 5%nat = Some qa) as Hl.
    { assert (((c :: front) ++ word ++ q :: p ++ q' :: more) !! 5%nat
              = Some qa) as Hl.
      { change ((c :: front) ++ word ++ q :: p ++ q' :: more)
          with (c :: front ++ word ++ q :: p ++ q' :: more).
        by rewrite Es. }
      rewrite app_assoc, lookup_app_l in Hl; [done|].
      rewrite length_app. simpl. lia. }
    by eapply (proj1 (Forall_lookup _ _) HW).
Qed.

Lemma statement_captured pre :
  noQuote pre →
  p ∈ captured importFromRe fromRe
        (pre ++ kw ++ b ++ sep ++ q :: p ++ q' :: post).
Proof.
  intros Hpre. unfold captured, matchAll.
  assert (∀ front m g,
            noQuote front →
            matchHere importFromRe
              (front ++ kw ++ b ++ sep ++ q :: p ++ q' :: post) = Some (m, g) →
            ∃ w, exec fromRe m = Some (w, p)) as Hexec.
  { intros front m g Hfront [more ->]%match_covers; [|done].
    replace ((front ++ kw ++ b ++ sep) ++ q :: p ++ q' :: more)
      with ((front ++ kw ++ b ++ [32]) ++ word ++ q :: p ++ q' :: more).
    - apply exec_from. rewrite !Forall_app.
      split_and!; [done|apply noQuote_kw|done|].
      repeat constructor; by intros [|].
    - by rewrite <- !app_assoc. }
  apply list_elem_of_omap.
  induction Hpre as [|c pre Hc Hpre IH].
  - destruct statement_match as [[m g] Hm].
    destruct (Hexec [] m g (Forall_nil_2 _) Hm) as [w Hw].
    exists m. split; [|by rewrite Hw].
    rewrite app_nil_l in *.
    change (kw ++ b ++ sep ++ q :: p ++ q' :: post)
      with (105 :: (str "mport " ++ b ++ sep ++ q :: p ++ q' :: post)) in *.
    rewrite matchAllFrom_cons, Hm. by left.
  - change ((c :: pre) ++ kw ++ b ++ sep ++ q :: p ++ q' :: post)
      with (c :: (pre ++ kw ++ b ++ sep ++ q :: p ++ q' :: post)).
    rewrite matchAllFrom_cons.
    destruct (matchHere importFromRe (c :: pre ++ _)) as [[m g]|] eqn:E;
      [|exact IH].
    destruct (Hexec (c :: pre) m g) as [w Hw]; [by constructor|exact E|].
    exists m. split; [by left|by rewrite Hw].
Qed.

End Statement.
End StaticPattern.

(** X6.  A static import, the word import, a clause b on one line, the
    word from and a specifier p between quotes of either kind, is
    detected when no quote comes before it in the text, whatever follows
    it: unless p names a path, its base name is in the result. *)
Theorem static_import_detected (pre b p post : jsstring) (q q' : N) :
  isQuote q → isQuote q' →
  squote ∉ pre → dquote ∉ pre →
  b ≠ [] → squote ∉ b → dquote ∉ b → Forall (λ c, c ∉ Regex.lineTerminators) b →
  p ≠ [] → squote ∉ p → dquote ∉ p →
  ¬ pathSpecifier p →
  baseName p
  ∈ extractImports (pre ++ str "import " ++ b ++ str " from "
                      ++ [q] ++ p ++ [q'] ++ post).
Proof.
  intros Hq Hq' Hpre1 Hpre2 Hb Hb1 Hb2 Hline Hp Hp1 Hp2 Hpath.
  assert (∀ l, squote ∉ l → dquote ∉ l → Forall (λ c, ¬ isQuote c) l) as HnoQ.
  { intros l H1 H2. apply Forall_forall. intros c Hc [->| ->]; done. }
  apply elem_of_extractImports. exists p. split_and!; try done.
  unfold capturedSpecifiers. rewrite !elem_of_app. right. left.
  apply (StaticPattern.statement_captured b p post q q'); auto.
Qed.

Module GreedyLine.
Import Regex RegexProperties CallPattern StaticPattern.

Local Abbreviation litRe l := ((λ c, Atom (Lit c) Once false) <$> l).
Local Abbreviation noQuote := (Forall (λ c, ¬ isQuote c)).
Local Abbreviation oneLine := (Forall (λ c, c ∉ lineTerminators)).
Local Abbreviation anyPlus := (Atom AnyChar Plus false).
Local Abbreviation quoted := ([quoteChar; specifier; quoteChar]).
Local Abbreviation quotes l :=
  (length (filter (λ c, c = squote ∨ c = dquote) l)).
Local Abbreviation kw := (str "import ").
Local Abbreviation sep := (str " from ").










Section Line.

Variables (b p mid b2 p2 : jsstring) (q q' q2 q2' : N).
Hypothesis q_quote : isQuote q.
Hypothesis q'_quote : isQuote q'.
Hypothesis q2_quote : isQuote q2.
Hypothesis q2'_quote : isQuote q2'.
Hypothesis b_nonempty : b ≠ [].
Hypothesis p_nonempty : p ≠ [].
Hypothesis p2_nonempty : p2 ≠ [].
Hypothesis no_quote : noQuote (b ++ p ++ mid ++ b2 ++ p2).
Hypothesis one_line : oneLine (b ++ p ++ mid ++ b2).

Local Abbreviation line :=
  (kw ++ b ++ sep ++ q :: p ++ q' :: mid ++ kw ++ b2 ++ sep
      ++ q2 :: p2 ++ [q2']).



End Line.
End GreedyLine.



Lemma split_head_prefix sep s seg :
  head (split sep s) = Some seg → ∃ rest, s = seg ++ rest.
Proof.
  revert seg. induction s as [|c s IH]; intros seg; simpl.
  - intros [= <-]. by exists [].
  - destruct (decide (c = sep)); [intros [= <-]; by exists (c :: s)|].
    destruct (split sep s) as [|seg' segs]; intros [= <-].
    + by exists s.
    + destruct (IH seg' eq_refl) as [rest ->]. by exists rest.
Qed.

Lemma baseName_prefix pkg : ∃ rest, pkg = baseName pkg ++ rest.
Proof.
  unfold baseName. destruct (head (split slash pkg)) as [seg|] eqn:E; simpl.
  - by eapply split_head_prefix.
  - by exists pkg.
Qed.

(** X8.  The names extracted from a text are exactly the base names of
    the specifiers that the three passes capture and that do not name a
    path. *)
Theorem extracted_names_exact (content p : jsstring) :
  p ∈ extractImports content
  ↔ ∃ pkg, pkg ∈ capturedSpecifiers content
           ∧ ¬ pathSpecifier pkg ∧ p = baseName pkg.
Proof.
  rewrite elem_of_extractImports. split.
  - intros (pkg & Hin & _ & Hpath & ->). by exists pkg.
  - intros (pkg & Hin & Hpath & ->). exists pkg. split_and!; try done.
    by apply capturedSpecifiers_wellformed in Hin as [? _].
Qed.

(** Every name extracted is a well-formed registry path segment. *)
Lemma extractImports_names (content p : jsstring) :
  p ∈ extractImports content → registryName p.
Proof.
  intros (pkg & Hin & Hne & Hpath & ->)%elem_of_extractImports.
  apply capturedSpecifiers_wellformed in Hin as [_ Hq].
  assert (startsWith (str "/") pkg = false) as Hslash.
  { destruct (startsWith (str "/") pkg) eqn:E; [|done].
    destruct Hpath. by right. }
  pose proof (baseName_nonempty pkg Hne Hslash) as Hbase.
  destruct (baseName_prefix pkg) as [rest Hrest].
  assert (∀ c, c ∈ baseName pkg → ¬ isQuote c) as Hchars.
  { intros c Hc. eapply (proj1 (Forall_forall _ _) Hq).
    rewrite Hrest. apply elem_of_app. by left. }
  split_and!.
  - done.
  - apply baseName_no_slash.
  - intros Hc. apply (Hchars _ Hc). by left.
  - intros Hc. apply (Hchars _ Hc). by right.
  - destruct (startsWith (str ".") (baseName pkg)) eqn:E; [|done].
    destruct Hpath. left. rewrite Hrest.
    destruct (baseName pkg) as [|c b]; [done|]. simpl in *.
    by destruct (decide (46 = c)).
Qed.

Lemma baseName_of_segment_witness :
  baseName (str "lodash" ++ slash :: str "fp/x") = str "lodash"
  ∧ baseName (str "@scope" ++ slash :: str "pkg") = str "@scope".
Proof.
  split.
  - apply (baseName_of_segment (str "lodash") (str "fp/x")).
    apply (bool_decide_unpack _). by vm_compute.
  - apply (baseName_of_segment (str "@scope") (str "pkg")).
    apply (bool_decide_unpack _). by vm_compute.
Defined.

Lemma no_quote_no_import_witness :
  extractImports (str "import x from lodash; require(fs)") = [].
Proof.
  apply no_quote_no_import; apply (bool_decide_unpack _); by vm_compute.
Defined.

Lemma require_call_detected_witness :
  baseName (str "lodash/fp")
  ∈ extractImports (str "const fp = " ++ str "require(" ++ [dquote]
                      ++ str "lodash/fp" ++ [squote] ++ str ")" ++ str ";")
  ∧ baseName (str "lodash/fp") = str "lodash".
Proof.
  split; [|by vm_compute].
  apply (require_call_detected (str "const fp = ") (str "lodash/fp") (str ";")
           dquote squote).
  - by right.
  - by left.
  - done.
  - apply (bool_decide_unpack _). by vm_compute.
  - apply (bool_decide_unpack _). by vm_compute.
  - reflexivity.
  - apply (bool_decide_unpack _). by vm_compute.
Defined.

Lemma dynamic_import_detected_witness :
  baseName (str "chalk")
  ∈ extractImports (str "await " ++ str "import(" ++ [squote]
                      ++ str "chalk" ++ [squote] ++ str ")" ++ str ".then(f)")
  ∧ baseName (str "chalk") = str "chalk".
Proof.
  split; [|by vm_compute].
  apply (dynamic_import_detected (str "await ") (str "chalk") (str ".then(f)")
           squote squote).
  - by left.
  - by left.
  - done.
  - apply (bool_decide_unpack _). by vm_compute.
  - apply (bool_decide_unpack _). by vm_compute.
  - reflexivity.
  - apply (bool_decide_unpack _). by vm_compute.
Defined.

Lemma static_import_detected_witness :
  baseName (str "react-dom/client")
  ∈ extractImports (str "/* entry */ " ++ str "import " ++ str "{ createRoot }"
                      ++ str " from " ++ [squote] ++ str "react-dom/client"
                      ++ [squote] ++ str "; createRoot(document.body)")
  ∧ baseName (str "react-dom/client") = str "react-dom".
Proof.
  split; [|done].
  apply static_import_detected;
    try (by left); try (apply (bool_decide_unpack _); by vm_compute).
Defined.


(** ** The walk, further *)

Lemma set_Forall {V} (P : jsstring * V → Prop) k v (o : Obj.t V) :
  P (k, v) → Forall P o → Forall P (Obj.set k v o).
Proof.
  intros Hkv. induction 1 as [|[k' v'] o Hk' Ho IH]; simpl.
  - by constructor.
  - destruct (decide (k' = k)); by constructor.
Qed.

Lemma assign_Forall {V} (P : jsstring * V → Prop) (target source : Obj.t V) :
  Forall P target → Forall P source → Forall P (Obj.assign target source).
Proof.
  unfold Obj.assign, Obj.entries. intros Ht Hs. revert target Ht.
  induction Hs as [|[k v] s Hkv Hs IH]; intros target Ht; simpl; [done|].
  by apply IH, set_Forall.
Qed.

Lemma elem_of_keys_assign {V} f (target source : Obj.t V) :
  f ∈ Obj.keys (Obj.assign target source)
  ↔ f ∈ Obj.keys target ∨ f ∈ Obj.keys source.
Proof.
  unfold Obj.assign, Obj.entries. revert target.
  induction source as [|[k v] s IH]; intros target; simpl.
  - split; [by left|]. by intros [?|[]%elem_of_nil].
  - rewrite IH, elem_of_keys_set.
    change (Obj.keys ((k, v) :: s)) with (k :: Obj.keys s).
    rewrite elem_of_cons. tauto.
Qed.

Lemma keys_assign_NoDup {V} (target source : Obj.t V) :
  NoDup (Obj.keys target) → NoDup (Obj.keys (Obj.assign target source)).
Proof.
  unfold Obj.assign, Obj.entries. revert target.
  induction source as [|[k v] s IH]; intros target Ht; simpl; [done|].
  by apply IH, keys_set_NoDup.
Qed.

Section WalkFurther.

Variable pathJoin : jsstring → jsstring → jsstring.

Lemma directories_filter allEntries :
  directories (filter (λ e, ignoredEntry e = false) allEntries)
  = directories allEntries.
Proof.
  induction allEntries as [|[name [[c|l]|e]] es IH]; [done|..];
    rewrite filter_cons; case_decide as H; unfold ignoredEntry in H;
    cbn [fst snd] in H; cbn [directories]; rewrite ?IH; try done.
  destruct (keptDirectory name); simpl in H; done.
Qed.

Lemma files_filter allEntries :
  files (filter (λ e, ignoredEntry e = false) allEntries) = files allEntries.
Proof.
  induction allEntries as [|[name [[c|l]|e]] es IH]; [done|..];
    rewrite filter_cons; case_decide as H; unfold ignoredEntry in H;
    cbn [fst snd] in H; cbn [files]; rewrite ?IH; try done.
  destruct (sourceFile name); simpl in H; done.
Qed.

Lemma keptDirectory_false name :
  keptDirectory name = false
  ↔ startsWith (str ".") name = true ∨ name = str "node_modules".
Proof.
  unfold keptDirectory.
  rewrite !andb_false_iff, !bool_decide_eq_false, negb_false_iff.
  split.
  - intros [[H|H]|H]; [|left|by left].
    + right. by destruct (decide (name = str "node_modules")).
    + by destruct (decide (name = str ".git")) as [->|].
  - intros [H| ->]; [by right|]. left. left. by intros ?.
Qed.

(** X9.  Only the entries that the partition keeps matter to the walk:
    entries that cannot be examined, directories named node_modules or
    starting with a dot (.git among them), whether they can be listed or
    not, and files without a source extension can be removed from the
    listing without changing what the walk returns or throws. *)
Theorem ignored_entries_do_not_matter targetPath allEntries :
  walk pathJoin targetPath (DirNode (Returned allEntries))
  = walk pathJoin targetPath
      (DirNode (Returned (filter (λ e, ignoredEntry e = false) allEntries)))
  ∧ (∀ name listing,
       ignoredEntry (name, Returned (DirNode listing)) = true
       ↔ startsWith (str ".") name = true ∨ name = str "node_modules")
  ∧ (∀ name content,
       ignoredEntry (name, Returned (FileNode content)) = true
       ↔ sourceFile name = false)
  ∧ (∀ name e, ignoredEntry (name, Thrown e) = true).
Proof.
  split_and!.
  - rewrite !walk_directory. by rewrite directories_filter, files_filter.
  - intros name listing. unfold ignoredEntry. simpl.
    by rewrite negb_true_iff, keptDirectory_false.
  - intros name content. unfold ignoredEntry. simpl. apply negb_true_iff.
  - done.
Qed.

(** *** What the walk returns, part by part *)

Lemma processFiles_structure targetPath fs acc :
  structure (processFiles pathJoin targetPath acc fs)
  = structure acc
      ++ ((λ file, FileItem file.1 (pathJoin targetPath file.1)) <$> fs).
Proof.
  unfold processFiles. revert acc.
  induction fs as [|file fs IH]; intros acc; simpl.
  - by rewrite app_nil_r.
  - rewrite IH.
    assert (structure (processFile pathJoin targetPath acc file)
            = structure acc ++ [FileItem file.1 (pathJoin targetPath file.1)])
      as ->.
    { unfold processFile.
      destruct (analyzeFileImports file.2); [case_bool_decide|]; done. }
    by rewrite <- app_assoc.
Qed.

Lemma processDirectories_structure targetPath dirs :
  ∀ acc acc',
    processDirectories pathJoin targetPath dirs acc = Returned acc' →
    ∃ subs,
      Forall2 (λ d sub, walk pathJoin (pathJoin targetPath d.1) d.2
                        = Returned sub) dirs subs
      ∧ structure acc'
        = structure acc
            ++ zip_with (λ d sub, DirectoryItem d.1 (pathJoin targetPath d.1)
                                    (structure sub)) dirs subs
      ∧ suggestedAnalysis acc'
        = suggestedAnalysis acc ++ concat (suggestedAnalysis <$> subs)
      ∧ packageImports acc'
        = foldl (λ o sub, Obj.assign o (packageImports sub))
                (packageImports acc) subs.
Proof.
  unfold processDirectories.
  induction dirs as [|d dirs IH]; intros acc acc'; cbn -[walk].
  - intros [= <-]. exists []. by rewrite !app_nil_r.
  - destruct (walk pathJoin (pathJoin targetPath d.1) d.2) as [sub|e] eqn:E;
      [|done].
    cbn -[walk]. intros (subs & Hsubs & Hst & Hsug & Hpi)%IH.
    exists (sub :: subs). split_and!.
    + by constructor.
    + rewrite Hst. simpl. by rewrite <- app_assoc.
    + rewrite Hsug. simpl. by rewrite <- app_assoc.
    + by rewrite Hpi.
Qed.

(** X10.  The tree of a directory lists the subdirectories kept, each with
    the tree of its own walk, before the source files, both in listing
    order; a file that cannot be read is listed all the same. *)
Theorem walk_structure targetPath allEntries analysis :
  walk pathJoin targetPath (DirNode (Returned allEntries)) = Returned analysis →
  ∃ subs,
    Forall2 (λ d sub, walk pathJoin (pathJoin targetPath d.1) d.2
                      = Returned sub) (directories allEntries) subs
    ∧ structure analysis
      = zip_with (λ d sub, DirectoryItem d.1 (pathJoin targetPath d.1)
                             (structure sub)) (directories allEntries) subs
        ++ ((λ file, FileItem file.1 (pathJoin targetPath file.1))
              <$> files allEntries).
Proof.
  rewrite walk_directory.
  destruct (processDirectories _ _ _ _) as [acc|e] eqn:E; [|done].
  simpl. intros [= <-].
  apply processDirectories_structure in E as (subs & Hsubs & Hst & _).
  exists subs. split; [done|]. by rewrite processFiles_structure, Hst.
Qed.

(** *** Exactly when the walk throws *)

Lemma walk_returns_listable n :
  ∀ targetPath analysis,
    walk pathJoin targetPath n = Returned analysis → listable n = true.
Proof.
  induction n as [content|e|allEntries IH] using node_induction;
    intros targetPath analysis; [done..|].
  rewrite walk_directory, listable_directory.
  destruct (processDirectories _ _ _ _) as [acc|e] eqn:E; [|done].
  intros _. apply processDirectories_structure in E as (subs & Hsubs & _).
  revert IH subs Hsubs. generalize (directories allEntries) as dirs.
  induction dirs as [|d dirs IHdirs]; intros IH subs Hsubs; [done|].
  apply Forall_cons in IH as [IHd IH].
  apply Forall2_cons_inv_l in Hsubs as (sub & subs' & Hd & Hsubs & ->).
  cbn -[listable]. rewrite (IHd _ _ Hd). by eapply IHdirs.
Qed.

(** *** What the walk records *)

Lemma wellRecorded_empty : wellRecorded emptyAnalysis.
Proof.
  split_and!; [apply NoDup_nil_2|constructor|].
  intros f []%elem_of_nil.
Qed.

Lemma wellRecorded_merge targetPath acc dir sub :
  wellRecorded acc → wellRecorded sub →
  wellRecorded (mergeDirectory pathJoin targetPath acc dir sub).
Proof.
  intros (Hn & Hf & Hs) (Hn' & Hf' & Hs'). split_and!; simpl.
  - by apply keys_assign_NoDup.
  - by apply assign_Forall.
  - intros f [?|?]%elem_of_app; apply elem_of_keys_assign; auto.
Qed.

Lemma wellRecorded_file targetPath acc file :
  wellRecorded acc → wellRecorded (processFile pathJoin targetPath acc file).
Proof.
  intros (Hn & Hf & Hs). unfold processFile.
  destruct file as [name [text|e]]; simpl; [|done].
  case_bool_decide as Hlen; [|done]. split_and!; simpl.
  - by apply keys_set_NoDup.
  - apply set_Forall; [|done]. simpl. split; [|by eexists].
    intros E. rewrite E in Hlen. simpl in Hlen. lia.
  - intros f Hf'. apply elem_of_keys_set.
    case_bool_decide; [|by right; apply Hs].
    apply elem_of_app in Hf' as [?|Hf']; [right; by apply Hs|].
    apply list_elem_of_singleton in Hf' as ->. by left.
Qed.

Lemma wellRecorded_walk n :
  ∀ targetPath analysis,
    walk pathJoin targetPath n = Returned analysis → wellRecorded analysis.
Proof.
  induction n as [content|e|allEntries IH] using node_induction;
    intros targetPath analysis; [done..|].
  rewrite walk_directory.
  destruct (processDirectories _ _ _ _) as [acc|e] eqn:E; [|done].
  simpl. intros [= <-].
  assert (wellRecorded acc) as Hacc.
  { revert E IH. unfold processDirectories.
    generalize wellRecorded_empty. generalize emptyAnalysis as acc0.
    generalize (directories allEntries) as dirs.
    induction dirs as [|d dirs IHdirs]; intros acc0 H0; cbn -[walk].
    - by intros [= <-].
    - destruct (walk pathJoin (pathJoin targetPath d.1) d.2) as [sub|e] eqn:Ed;
        [|done].
      cbn -[walk]. intros E [IHd IH]%Forall_cons.
      apply (IHdirs (mergeDirectory pathJoin targetPath acc0 d.1 sub));
        [|exact E|exact IH].
      apply wellRecorded_merge; [done|]. exact (IHd _ _ Ed). }
  unfold processFiles. clear E. revert acc Hacc.
  induction (files allEntries) as [|file fs IHfs]; intros acc Hacc; [done|].
  simpl. by apply IHfs, wellRecorded_file.
Qed.

(** X11.  The walk throws exactly when the root is no directory or some
    kept subdirectory, at whatever depth, cannot be listed; nothing else
    (unreadable files, entries that cannot be examined, excluded
    directories) makes it throw. *)
Theorem walk_throws_exactly n targetPath :
  (∃ analysis, walk pathJoin targetPath n = Returned analysis)
  ↔ listable n = true.
Proof.
  split.
  - intros [analysis H]. by eapply walk_returns_listable.
  - apply listable_walk_returns.
Qed.

(** X12.  What the walk records: the keys of the imports map are
    distinct, every list recorded is the extraction of some text, not
    empty and without a name twice, and every suggested file is a key of
    the map. *)
Theorem walk_records_extractions targetPath root analysis :
  analyzeProjectStructure pathJoin targetPath root = Returned analysis →
  NoDup (Obj.keys (packageImports analysis))
  ∧ (∀ f imports,
       (f, imports) ∈ packageImports analysis →
       imports ≠ [] ∧ NoDup imports ∧ ∃ text, imports = extractImports text)
  ∧ (∀ f, f ∈ suggestedAnalysis analysis
          → f ∈ Obj.keys (packageImports analysis)).
Proof.
  intros H.
  assert (wellRecorded analysis) as (Hkeys & Hall & Hsug).
  { destruct root as [n|]; simpl in H.
    - by eapply wellRecorded_walk.
    - injection H as <-. apply wellRecorded_empty. }
  split_and!; [done| |done].
  intros f imports Hin.
  destruct (proj1 (Forall_forall _ _) Hall _ Hin) as (Hne & text & E).
  simpl in *. split_and!; [done| |by exists text].
  rewrite E. apply (extractImports_invariant NoDup); [|apply NoDup_nil_2].
  intros pkg s _ _ _. apply set_add_NoDup.
Qed.

End WalkFurther.


(** ** The commands, further *)

Lemma extractUniquePackages_nil_iff (packageImports : Obj.t (list jsstring)) :
  extractUniquePackages packageImports = []
  ↔ Forall (λ entry, entry.2 = []) packageImports.
Proof.
  split.
  - intros Hnil. apply Forall_forall. intros [f imports] Hin. simpl.
    destruct imports as [|p imports]; [done|].
    assert (p ∈ extractUniquePackages packageImports) as Hp.
    { apply elem_of_extractUniquePackages. exists (f, p :: imports).
      split; [done|by left]. }
    rewrite Hnil in Hp. by apply elem_of_nil in Hp.
  - intros Hall. apply elem_of_nil_inv. intros p Hp.
    apply elem_of_extractUniquePackages in Hp as (entry & Hin & Hp).
    rewrite (proj1 (Forall_forall _ _) Hall entry Hin) in Hp.
    by apply elem_of_nil in Hp.
Qed.

Lemma requested_names (packageImports : Obj.t (list jsstring)) :
  Forall (λ entry, entry.2 ≠ [] ∧ ∃ text, entry.2 = extractImports text)
         packageImports →
  NoDup (extractUniquePackages packageImports)
  ∧ (∀ p, p ∈ extractUniquePackages packageImports → registryName p)
  ∧ (extractUniquePackages packageImports = [] ↔ packageImports = []).
Proof.
  intros Hall. split_and!.
  - apply extractUniquePackages_NoDup.
  - intros p (entry & Hin & Hp)%elem_of_extractUniquePackages.
    destruct (proj1 (Forall_forall _ _) Hall entry Hin) as (_ & text & E).
    rewrite E in Hp. by apply extractImports_names in Hp.
  - rewrite extractUniquePackages_nil_iff. split; [|by intros ->].
    destruct packageImports as [|entry pi]; [done|].
    intros [E _]%Forall_cons. by apply Forall_cons in Hall as [[? _] _].
Qed.

Section CommandsFurther.

Variable pathJoin : jsstring → jsstring → jsstring.
Variable extname : jsstring → jsstring.
Variable readFileSync : jsstring → outcome jsstring.

Lemma scanSelected_records selectedFiles :
  ∀ acc packageImports,
    Forall (λ entry, entry.2 ≠ [] ∧ ∃ text, entry.2 = extractImports text) acc →
    forEach (λ packageImports path,
               obind (analyzeFileImports (readFileSync path))
                 (λ imports,
                    Returned (if bool_decide (0 < length imports)%nat
                              then Obj.set path imports packageImports
                              else packageImports)))
            acc selectedFiles = Returned packageImports →
    Forall (λ entry, entry.2 ≠ [] ∧ ∃ text, entry.2 = extractImports text)
           packageImports.
Proof.
  induction selectedFiles as [|path l IH]; intros acc packageImports Hacc;
    simpl; [by intros [= <-]|].
  destruct (readFileSync path) as [text|e]; simpl; [|done].
  apply IH. case_bool_decide as Hlen; [|done].
  apply set_Forall; [|done]. simpl. split; [|by eexists].
  intros E. rewrite E in Hlen. simpl in Hlen. lia.
Qed.

(** X13.  Whatever the command, the package names for which metadata is
    requested are those of the analysis displayed, each once, at least
    one, and every one a well-formed registry path segment: not empty,
    without slash or quote, not starting with a dot. *)
Theorem commands_request_registry_names analysis packageNames :
  (∃ targetPath root,
     analyzeProjectCommand pathJoin targetPath root
     = FetchAndDisplay analysis packageNames)
  ∨ (∃ selectedFiles,
       analyzeSelectedFilesCommand readFileSync selectedFiles
       = FetchAndDisplay analysis packageNames)
  ∨ (∃ activeEditor,
       analyzeCurrentFileCommand extname readFileSync activeEditor
       = FetchAndDisplay analysis packageNames) →
  packageNames ≠ [] ∧ NoDup packageNames
  ∧ (∀ p, p ∈ packageNames → registryName p)
  ∧ (∀ p, p ∈ packageNames
          ↔ ∃ entry, entry ∈ packageImports analysis ∧ p ∈ entry.2).
Proof.
  assert (∀ pi : Obj.t (list jsstring),
            Forall (λ entry, entry.2 ≠ []
                             ∧ ∃ text, entry.2 = extractImports text) pi →
            extractUniquePackages pi ≠ [] →
            extractUniquePackages pi ≠ [] ∧ NoDup (extractUniquePackages pi)
            ∧ (∀ p, p ∈ extractUniquePackages pi → registryName p)
            ∧ (∀ p, p ∈ extractUniquePackages pi
                    ↔ ∃ entry, entry ∈ pi ∧ p ∈ entry.2)) as Hgen.
  { intros pi Hall Hne.
    destruct (requested_names pi Hall) as (Hnodup & Hnames & _).
    split_and!; try done. intros p. apply elem_of_extractUniquePackages. }
  intros [(targetPath & root & H)|[(selectedFiles & H)|(activeEditor & H)]].
  - unfold analyzeProjectCommand in H.
    destruct (analyzeProjectStructure pathJoin targetPath root)
      as [a|e] eqn:E; [|done].
    case_bool_decide as Hlen; [done|]. injection H as <- <-.
    apply Hgen; [|by intros E'; rewrite E' in Hlen].
    destruct root as [n|]; simpl in E.
    + by apply wellRecorded_walk in E as (_ & ? & _).
    + injection E as <-. constructor.
  - unfold analyzeSelectedFilesCommand in H.
    destruct selectedFiles as [[|f0 l]|]; [done| |done].
    destruct (scanSelected readFileSync (f0 :: l)) as [pi|e] eqn:E; [|done].
    case_bool_decide as Hlen; [done|]. injection H as <- <-. simpl.
    apply Hgen; [|by intros E'; rewrite E' in Hlen].
    by apply scanSelected_records in E.
  - unfold analyzeCurrentFileCommand in H.
    destruct activeEditor as [filePath|]; [|done].
    case_bool_decide; [done|].
    destruct (readFileSync filePath) as [text|e]; simpl in H; [|done].
    case_bool_decide as Hlen; [done|]. injection H as <- <-. simpl.
    split_and!.
    + by intros E'; rewrite E' in Hlen.
    + apply (extractImports_invariant NoDup); [|apply NoDup_nil_2].
      intros pkg s _ _ _. apply set_add_NoDup.
    + intros p. apply extractImports_names.
    + intros p. split.
      * intros Hp. exists (filePath, extractImports text).
        split; [by left|done].
      * by intros (entry & ->%list_elem_of_singleton & Hp).
Qed.

(** X14.  The project command reports that no package was found exactly
    when the walk returned and recorded no file. *)
Theorem no_packages_exactly targetPath root :
  analyzeProjectCommand pathJoin targetPath root
  = ShowInformationMessage noPackagesInProject
  ↔ ∃ analysis,
      analyzeProjectStructure pathJoin targetPath root = Returned analysis
      ∧ packageImports analysis = [].
Proof.
  unfold analyzeProjectCommand.
  destruct (analyzeProjectStructure pathJoin targetPath root)
    as [a|e] eqn:E.
  - assert (extractUniquePackages (packageImports a) = []
            ↔ packageImports a = []) as Hnil.
    { apply requested_names. destruct root as [n|]; simpl in E.
      - by apply wellRecorded_walk in E as (_ & ? & _).
      - injection E as <-. constructor. }
    case_bool_decide as Hlen.
    + apply length_zero_iff_nil, Hnil in Hlen. split; [eauto|done].
    + split; [done|]. intros (a' & [= <-] & Hpi).
      destruct Hlen. by rewrite (proj2 Hnil Hpi).
  - split; [done|]. by intros (a & [=] & _).
Qed.

(** X15.  The selected-files command stops at the first file that cannot
    be read and reports its message, whatever was read before and
    whatever follows. *)
Theorem selected_files_first_unreadable before f e after :
  Forall (λ g, ∃ text, readFileSync g = Returned text) before →
  readFileSync f = Thrown e →
  analyzeSelectedFilesCommand readFileSync (Some (before ++ f :: after))
  = ShowErrorMessage (str "Error analyzing files: " ++ e).
Proof.
  intros Hbefore Hf.
  assert (∀ acc,
            forEach (λ packageImports path,
               obind (analyzeFileImports (readFileSync path))
                 (λ imports,
                    Returned (if bool_decide (0 < length imports)%nat
                              then Obj.set path imports packageImports
                              else packageImports)))
              acc (before ++ f :: after) = Thrown e) as Hscan.
  { induction Hbefore as [|g before [text Hg] _ IH]; intros acc; simpl.
    - by rewrite Hf.
    - rewrite Hg. simpl. apply IH. }
  unfold analyzeSelectedFilesCommand, scanSelected. rewrite Hscan.
  by destruct before.
Qed.

End CommandsFurther.

Lemma walk_structure_witness :
  ∃ analysis dirItems,
    walk posixJoin (str "/proj") busyProject = Returned analysis
    ∧ length dirItems = 1%nat
    ∧ structure analysis
      = dirItems ++ [ FileItem (str "four.ts") (str "/proj/four.ts");
                      FileItem (str "three.ts") (str "/proj/three.ts") ].
Proof.
  destruct (walk posixJoin (str "/proj") busyProject) as [analysis|e] eqn:E;
    [|by vm_compute in E].
  destruct (walk_structure posixJoin (str "/proj") _ analysis E)
    as (subs & Hsubs & Hst).
  exists analysis. eexists. split; [done|]. split; [|exact Hst].
  apply Forall2_length in Hsubs. rewrite length_zip_with, <- Hsubs.
  by vm_compute.
Defined.

Lemma walk_records_extractions_witness :
  ∃ analysis,
    analyzeProjectStructure posixJoin (str "/proj") (Some busyProject)
      = Returned analysis
    ∧ NoDup (Obj.keys (packageImports analysis))
    ∧ Obj.keys (packageImports analysis)
      = [str "/proj/sub/deep.js"; str "/proj/four.ts"; str "/proj/three.ts"].
Proof.
  destruct (analyzeProjectStructure posixJoin (str "/proj") (Some busyProject))
    as [analysis|e] eqn:E; [|by vm_compute in E].
  exists analysis. split; [done|].
  destruct (walk_records_extractions posixJoin (str "/proj") _ analysis E)
    as (Hkeys & _ & _).
  split; [exact Hkeys|]. vm_compute in E. by injection E as <-.
Defined.

Section ScannedProperties.

Variable pathJoin : jsstring → jsstring → jsstring.

Lemma scanned_directory targetPath allEntries :
  scanned pathJoin targetPath (DirNode (Returned allEntries))
  = (directories allEntries
       ≫= λ d, scanned pathJoin (pathJoin targetPath d.1) d.2)
    ++ ((λ file, (pathJoin targetPath file.1, file.2)) <$> files allEntries).
Proof.
  simpl. f_equal.
  induction allEntries as [|[dir [sub|e]] l IH]; [done| |apply IH].
  destruct sub as [content|listing]; [apply IH|].
  cbn -[scanned]. rewrite IH.
  destruct (keptDirectory dir); [|done]. by rewrite bind_cons.
Qed.

Lemma processFiles_keys targetPath fs acc f :
  f ∈ Obj.keys (packageImports (processFiles pathJoin targetPath acc fs))
  ↔ f ∈ Obj.keys (packageImports acc)
    ∨ ∃ file, file ∈ fs ∧ f = pathJoin targetPath file.1
              ∧ withPackages file.2.
Proof.
  unfold processFiles. revert acc.
  induction fs as [|file fs IH]; intros acc; simpl.
  - split; [by left|]. by intros [?|(file & []%elem_of_nil & _)].
  - rewrite IH.
    assert (f ∈ Obj.keys (packageImports
                            (processFile pathJoin targetPath acc file))
            ↔ f ∈ Obj.keys (packageImports acc)
              ∨ (f = pathJoin targetPath file.1 ∧ withPackages file.2))
      as ->.
    { unfold processFile, withPackages.
      destruct (analyzeFileImports file.2) as [imports|e]; simpl.
      - case_bool_decide as Hlen; simpl.
        + rewrite elem_of_keys_set. split; [intros [->|?]|intros [?|[-> _]]];
            [right|by left|by right|by left].
          split; [done|]. exists imports. split; [done|].
          intros ->. simpl in Hlen. lia.
        + split; [by left|]. intros [?|[_ (i & [= <-] & Hne)]]; [done|].
          destruct imports; [done|simpl in Hlen; lia].
      - split; [by left|]. by intros [?|[_ (i & [=] & _)]]. }
    split.
    + intros [[?|[-> ?]]|(file' & ? & ? & ?)]; [by left|right..].
      * exists file. split; [by left|done].
      * exists file'. split; [by right|done].
    + intros [?|(file' & [->|?]%elem_of_cons & ? & ?)];
        [by left; left|by left; right|right].
      by exists file'.
Qed.

Lemma assign_all_keys (subs : list ProjectAnalysis) f :
  ∀ o : Obj.t (list jsstring),
    f ∈ Obj.keys (foldl (λ o sub, Obj.assign o (packageImports sub)) o subs)
    ↔ f ∈ Obj.keys o
      ∨ ∃ sub, sub ∈ subs ∧ f ∈ Obj.keys (packageImports sub).
Proof.
  induction subs as [|sub subs IH]; intros o; simpl.
  - split; [by left|]. by intros [?|(sub & []%elem_of_nil & _)].
  - rewrite IH, elem_of_keys_assign. split.
    + intros [[?|?]|(sub' & ? & ?)]; [by left|right..].
      * exists sub. split; [by left|done].
      * exists sub'. split; [by right|done].
    + intros [?|(sub' & [->|?]%elem_of_cons & ?)];
        [by left; left|by left; right|right].
      by exists sub'.
Qed.

Lemma walk_scanned n :
  ∀ targetPath analysis,
    walk pathJoin targetPath n = Returned analysis →
    suggestedAnalysis analysis
    = (filter (λ fc, manyImports fc.2 = true) (scanned pathJoin targetPath n)).*1
    ∧ ∀ f, f ∈ Obj.keys (packageImports analysis)
           ↔ ∃ content, (f, content) ∈ scanned pathJoin targetPath n
                        ∧ withPackages content.
Proof.
  induction n as [content|e|allEntries IH] using node_induction;
    intros targetPath analysis; [done..|].
  rewrite walk_directory, scanned_directory.
  destruct (processDirectories _ _ _ _) as [acc|e] eqn:E; [|done].
  simpl. intros [= <-].
  apply processDirectories_structure in E as (subs & Hsubs & _ & Hsug & Hpi).
  change (suggestedAnalysis emptyAnalysis) with (@nil jsstring) in Hsug.
  change (packageImports emptyAnalysis) with (@nil (jsstring * list jsstring)) in Hpi.
  rewrite app_nil_l in Hsug.
  assert (Forall2 (λ d sub,
            suggestedAnalysis sub
            = (filter (λ fc, manyImports fc.2 = true)
                 (scanned pathJoin (pathJoin targetPath d.1) d.2)).*1
            ∧ ∀ f, f ∈ Obj.keys (packageImports sub)
                   ↔ ∃ content,
                       (f, content)
                         ∈ scanned pathJoin (pathJoin targetPath d.1) d.2
                       ∧ withPackages content)
            (directories allEntries) subs) as Hall.
  { clear Hsug Hpi. revert IH.
    induction Hsubs as [|d sub dirs subs Hd _ IHs]; intros IH; [constructor|].
    apply Forall_cons in IH as [IHd IH]. constructor; [|by apply IHs].
    by eapply IHd. }
  clear Hsubs IH. split.
  - rewrite processFiles_suggested, Hsug, filter_app, fmap_app. f_equal.
    + clear Hpi Hsug.
      induction Hall as [|d sub dirs subs [Hd _] _ IHs]; [done|].
      rewrite bind_cons, filter_app, fmap_app, (fmap_cons suggestedAnalysis).
      cbn [concat]. by rewrite Hd, IHs.
    + generalize (files allEntries) as fs. clear.
      induction fs as [|file fs IHfs]; [done|].
      rewrite fmap_cons, !filter_cons. cbn [fst snd].
      destruct (decide (manyImports file.2 = true));
        rewrite ?fmap_cons, IHfs; done.
  - intros f. rewrite processFiles_keys, Hpi, assign_all_keys. split.
    + intros [[[]%elem_of_nil|(sub & Hsub & Hf)]|(file & Hin & -> & Hw)].
      * apply list_elem_of_lookup in Hsub as [k Hk].
        destruct (Forall2_lookup_r _ _ _ _ _ Hall Hk) as (d & Hd & Hsg & Hkeys).
        destruct (proj1 (Hkeys f) Hf) as (content & Hc & Hw).
        exists content. split; [|done].
        apply elem_of_app. left. apply list_elem_of_bind. exists d.
        split; [done|]. by eapply list_elem_of_lookup_2.
      * exists file.2. split; [|done].
        apply elem_of_app. right. apply list_elem_of_fmap. by exists file.
    + intros (content & Hin & Hw).
      apply elem_of_app in Hin
        as [(d & Hc & Hd)%list_elem_of_bind
           |(file & [= -> ->] & Hin)%list_elem_of_fmap].
      * left. right. apply list_elem_of_lookup in Hd as [k Hk].
        destruct (Forall2_lookup_l _ _ _ _ _ Hall Hk) as (sub & Hs & Hsg & Hkeys).
        exists sub. split; [by eapply list_elem_of_lookup_2|].
        apply Hkeys. by exists content.
      * right. by exists file.
Qed.

(** X16.  The suggestions of a walk that returns are the paths of the
    source files of the whole tree read with more than three distinct
    packages, at any depth, in the order of the walk: subdirectories
    first, then the directory's own files. *)
Theorem walk_suggests_whole_tree targetPath n analysis :
  walk pathJoin targetPath n = Returned analysis →
  suggestedAnalysis analysis
  = (filter (λ fc, manyImports fc.2 = true)
       (scanned pathJoin targetPath n)).*1.
Proof. intros Hwalk. by apply walk_scanned. Qed.

(** X17.  The merge of the subdirectories' results loses no file and
    invents none: the keys of the imports of a walk that returns are
    the paths of the source files of the whole tree, at any depth, that
    were read with at least one package. *)
Theorem walk_records_whole_tree targetPath n analysis :
  walk pathJoin targetPath n = Returned analysis →
  ∀ f, f ∈ Obj.keys (packageImports analysis)
       ↔ ∃ content, (f, content) ∈ scanned pathJoin targetPath n
                    ∧ withPackages content.
Proof. intros Hwalk. by apply walk_scanned. Qed.

End ScannedProperties.

Lemma walk_suggests_whole_tree_witness :
  ∃ analysis,
    walk posixJoin (str "/proj") busyProject = Returned analysis
    ∧ suggestedAnalysis analysis
      = [str "/proj/sub/deep.js"; str "/proj/four.ts"].
Proof.
  destruct (walk posixJoin (str "/proj") busyProject) as [analysis|e] eqn:E;
    [|by vm_compute in E].
  exists analysis. split; [done|].
  rewrite (walk_suggests_whole_tree posixJoin _ _ _ E). by vm_compute.
Defined.

Lemma walk_records_whole_tree_witness :
  ∃ analysis,
    walk posixJoin (str "/proj") busyProject = Returned analysis
    ∧ str "/proj/sub/deep.js" ∈ Obj.keys (packageImports analysis).
Proof.
  destruct (walk posixJoin (str "/proj") busyProject) as [analysis|e] eqn:E;
    [|by vm_compute in E].
  exists analysis. split; [done|].
  apply (walk_records_whole_tree posixJoin _ _ _ E).
  exists (Returned fourPackages). split.
  - vm_compute. apply list_elem_of_here.
  - eexists. split; [by vm_compute|done].
Defined.


Lemma commands_request_registry_names_witness :
  ∃ analysis packageNames,
    analyzeProjectCommand posixJoin (str "/proj") (Some busyProject)
      = FetchAndDisplay analysis packageNames
    ∧ packageNames = [str "p0"; str "p1"; str "p2"; str "p3"]
    ∧ NoDup packageNames
    ∧ ∀ p, p ∈ packageNames → registryName p.
Proof.
  destruct (analyzeProjectCommand posixJoin (str "/proj") (Some busyProject))
    as [| | |analysis packageNames] eqn:E; try by vm_compute in E.
  exists analysis, packageNames. split; [done|].
  destruct (commands_request_registry_names posixJoin lastExtension smallDisk
              analysis packageNames) as (_ & Hnodup & Hnames & _).
  { left. by exists (str "/proj"), (Some busyProject). }
  split; [|by split]. vm_compute in E. by injection E as _ <-.
Defined.

Lemma selected_files_first_unreadable_witness :
  analyzeSelectedFilesCommand smallDisk
    (Some ([str "/w/one.ts"] ++ str "/w/missing.ts" :: [str "/w/two.js"]))
  = ShowErrorMessage
      (str "Error analyzing files: "
         ++ str "ENOENT: no such file or directory").
Proof.
  apply (selected_files_first_unreadable smallDisk [str "/w/one.ts"]).
  - constructor; [|constructor].
    exists (str "import a from 'left-pad'"). by vm_compute.
  - by vm_compute.
Defined.

(** ** Usage aggregation, further *)

Lemma elem_of_uses f pkg (packageImports : Obj.t (list jsstring)) :
  f ∈ uses pkg packageImports
  ↔ ∃ imports, (f, imports) ∈ packageImports ∧ pkg ∈ imports.
Proof.
  unfold uses, Obj.entries. rewrite list_elem_of_bind. split.
  - intros ([f' imports] & Hf & Hin). simpl in Hf.
    apply list_elem_of_fmap in Hf as (p & -> & Hp).
    apply list_elem_of_filter in Hp as [-> Hp]. by exists imports.
  - intros (imports & Hin & Hp). exists (f, imports). split; [|done].
    simpl. apply list_elem_of_fmap. exists pkg. split; [done|].
    by apply list_elem_of_filter.
Qed.

Lemma packageUsage_returns_plain packageImports u :
  packageUsage packageImports = Returned u → plainNames packageImports.
Proof.
  intros H. destruct (decide (plainNames packageImports)) as [|Hnot]; [done|].
  unfold packageUsage in H. by rewrite packageUsageFrom_thrown in H.
Qed.

(** X18.  When the usage table is built, it has one entry for each
    unique package and no other; the files of an entry are the files
    whose import lists name the package, in iteration order, and its
    count is their number. *)
Theorem usage_table_exact (packageImports : Obj.t (list jsstring)) u :
  packageUsage packageImports = Returned u →
  size u = length (extractUniquePackages packageImports)
  ∧ ∀ pkg entry,
      u !! pkg = Some entry →
      Usage.count entry = length (Usage.files entry)
      ∧ Usage.files entry = uses pkg packageImports
      ∧ ∀ f, f ∈ Usage.files entry
             ↔ ∃ imports, (f, imports) ∈ packageImports ∧ pkg ∈ imports.
Proof.
  intros H. pose proof (packageUsage_returns_plain _ _ H) as Hplain.
  destruct (packageUsage_lookup _ Hplain) as (u' & Hu' & Hlook).
  rewrite H in Hu'. injection Hu' as <-. split.
  - rewrite <- size_dom.
    rewrite <- (size_list_to_set (C:=gset jsstring))
      by apply extractUniquePackages_NoDup.
    f_equal. apply set_eq. intros pkg.
    rewrite elem_of_dom, elem_of_list_to_set, Hlook,
      elem_of_extractUniquePackages.
    destruct (uses pkg packageImports) as [|f l] eqn:E; simpl.
    + apply uses_nil_iff in E. split; [by intros [? ?]|done].
    + split; [intros _|by eauto].
      assert (f ∈ uses pkg packageImports) as Hf by (rewrite E; by left).
      apply elem_of_uses in Hf as (imports & Hin & Hp).
      by exists (f, imports).
  - intros pkg entry. rewrite Hlook.
    destruct (uses pkg packageImports) as [|f l] eqn:E; [done|].
    simpl. intros [= <-]. simpl. split_and!; [done|done|].
    intros f'. by rewrite <- E, elem_of_uses.
Qed.

(** X19.  Building the usage table throws exactly when some import list
    names a package called like a property of Object.prototype
    (constructor, toString, ...). *)
Theorem usage_table_throws_exactly (packageImports : Obj.t (list jsstring)) :
  (∃ e, packageUsage packageImports = Thrown e)
  ↔ ∃ entry pkg, entry ∈ packageImports ∧ pkg ∈ entry.2
                 ∧ pkg ∈ inheritedProperties.
Proof.
  split.
  - intros [e H].
    destruct (decide (plainNames packageImports)) as [Hplain|Hnot].
    { destruct (packageUsage_lookup _ Hplain) as (u & Hu & _). congruence. }
    unfold plainNames in Hnot.
    apply not_Forall_Exists, Exists_exists in Hnot as (entry & Hin & Hnot);
      [|apply _].
    apply not_Forall_Exists, Exists_exists in Hnot as (pkg & Hpkg & Hnot);
      [|apply _].
    exists entry, pkg. split_and!; try done.
    by destruct (decide (pkg ∈ inheritedProperties)).
  - intros (entry & pkg & Hin & Hpkg & Hinh). exists pushOfUndefined.
    unfold packageUsage. apply packageUsageFrom_thrown.
    intros Hplain. unfold plainNames in Hplain.
    pose proof (proj1 (Forall_forall _ _) Hplain entry Hin) as Hentry.
    by apply (proj1 (Forall_forall _ _) Hentry pkg Hpkg).
Qed.

(** X20.  [extractUniquePackages] returns every package of every import
    list once: its result has no name twice, holds exactly the names
    that some list holds, and is empty only when all lists are. *)
Theorem extractUniquePackages_exact (packageImports : Obj.t (list jsstring)) :
  NoDup (extractUniquePackages packageImports)
  ∧ (∀ pkg, pkg ∈ extractUniquePackages packageImports
            ↔ ∃ entry, entry ∈ packageImports ∧ pkg ∈ entry.2)
  ∧ (extractUniquePackages packageImports = []
     ↔ Forall (λ entry, entry.2 = []) packageImports).
Proof.
  split_and!.
  - apply extractUniquePackages_NoDup.
  - intros pkg. apply elem_of_extractUniquePackages.
  - apply extractUniquePackages_nil_iff.
Qed.


Module FetchFurther.
Import Fetch FetchNotions FetchProperties.

Section OneName.

Variable packageNames : list jsstring.
Variable net : network.
Variable i : nat.
Variable packageName : jsstring.
Hypothesis at_i : packageNames !! i = Some packageName.
Hypothesis only_i : ∀ j, packageNames !! j = Some packageName → j = i.

Lemma progress_start : progress net i packageName (start packageNames).
Proof.
  left. simpl. split; [|apply lookup_table_empty].
  by rewrite list_lookup_fmap, at_i.
Qed.

Lemma progress_resume st k :
  progress net i packageName st →
  progress net i packageName (resume packageNames net st k).
Proof.
  intros Hst. unfold resume.
  destruct (packageNames !! k) as [q|] eqn:Hk; [|done].
  destruct (decide (k = i)) as [->|Hne].
  - rewrite at_i in Hk. injection Hk as ->.
    assert (i < length (phases st))%nat as Hlt.
    { destruct Hst as [[H _]|[[H _]|[H _]]]; by eapply lookup_lt_Some. }
    unfold progress, settledRecord, answered, countedDownloads in *.
    destruct Hst as [[Hp Hd]|[(Hp & body & Hb & Hd)|[Hp Hd]]]; rewrite Hp.
    + destruct (registry net i) as [r|e];
        [destruct (decide (status r = _)); [destruct (data r)|]|].
      all: try (right; right; simpl; split;
                [by apply list_lookup_insert_eq|by rewrite ?lookup_assign_eq]).
      right. left. simpl. split; [by apply list_lookup_insert_eq|].
      exists a. by rewrite lookup_assign_eq.
    + right. right.
      destruct (registry net i) as [r|e]; [|done].
      destruct (decide (status r = _)); [|done].
      destruct (data r) as [| |body']; try done. injection Hb as ->.
      destruct (downloads net i) as [d|e'];
        [destruct (decide (status d = _)); [destruct (data d)|]|];
        simpl; (split; [by apply list_lookup_insert_eq|]);
        rewrite ?lookup_assignWeeklyDownloads_eq, ?Hd; done.
    + by right; right.
  - assert (q ≠ packageName) as Hq.
    { intros ->. by apply Hne, only_i. }
    assert (∀ ph pd rq,
              pd !! packageName = packageData st !! packageName →
              progress net i packageName
                (mkState pd (<[k:=ph]> (phases st)) rq)) as Hkeep.
    { intros ph pd rq Hpd. unfold progress in *. simpl.
      rewrite list_lookup_insert_ne by done. by rewrite Hpd. }
    destruct (phases st !! k) as [[]|]; [| |done..].
    + destruct (registry net k) as [r|e];
        [destruct (decide (status r = _)); [destruct (data r)|]|];
        unfold settle; apply Hkeep;
        rewrite ?lookup_assign_ne by done; done.
    + destruct (downloads net k) as [r|e];
        [destruct (decide (status r = _)); [destruct (data r)|]|];
        unfold settle; apply Hkeep;
        rewrite ?lookup_assignWeeklyDownloads_ne by done; done.
Qed.

Lemma progress_run schedule :
  progress net i packageName (run packageNames net schedule).
Proof.
  unfold run. generalize progress_start.
  generalize (start packageNames) as st. revert schedule.
  induction schedule as [|j schedule IH]; intros st Hst; simpl; [done|].
  by apply IH, progress_resume.
Qed.

Lemma fetch_lookup schedule result :
  fetchNpmMetadata packageNames net schedule = Some result →
  result !! packageName
  = recommended packageName <$> settledRecord net i packageName.
Proof.
  unfold fetchNpmMetadata.
  destruct (allSettled _) eqn:Hall; [|done]. intros [= <-].
  rewrite recommend_lookup.
  unfold allSettled in Hall. rewrite forallb_forall in Hall.
  destruct (progress_run schedule)
    as [[Hp _]|[[Hp _]|[_ ->]]]; [| |done];
    apply list_elem_of_lookup_2, list_elem_of_In, Hall in Hp; done.
Qed.

End OneName.

Lemma absent_run packageNames net packageName schedule :
  packageName ∉ packageNames →
  packageData (run packageNames net schedule) !! packageName = None.
Proof.
  intros Hout. unfold run.
  assert (packageData (start packageNames) !! packageName = None) as H0
    by apply lookup_table_empty.
  revert H0. generalize (start packageNames) as st. revert schedule.
  induction schedule as [|k schedule IH]; intros st Hst; simpl; [done|].
  apply IH. unfold resume.
  destruct (packageNames !! k) as [q|] eqn:Hk; [|done].
  assert (q ≠ packageName) as Hq.
  { intros ->. apply Hout. by eapply list_elem_of_lookup_2. }
  destruct (phases st !! k) as [[]|]; [| |done..].
  - destruct (registry net k) as [r|e];
      [destruct (decide (status r = _)); [destruct (data r)|]|];
      simpl; rewrite ?lookup_assign_ne by done; done.
  - destruct (downloads net k) as [r|e];
      [destruct (decide (status r = _)); [destruct (data r)|]|];
      simpl; rewrite ?lookup_assignWeeklyDownloads_ne by done; done.
Qed.

End FetchFurther.

Module FetchResults.
Import Fetch FetchNotions FetchProperties FetchFurther.

Lemma NoDup_only (packageNames : list jsstring) i packageName :
  NoDup packageNames → packageNames !! i = Some packageName →
  ∀ j, packageNames !! j = Some packageName → j = i.
Proof. intros Hnodup Hi j Hj. by eapply NoDup_lookup. Qed.

(** X21.  For distinct package names the table returned does not depend
    on the order in which the answers arrive: read at each name it gives
    what the callback of that name stores when run on its own, with the
    alternatives unless the name is __proto__ (whose record is the
    prototype of the table and no key of it), and no record at any other
    name; any two completed runs return the same table. *)
Theorem fetch_result_determined (packageNames : list jsstring) net schedule
    result :
  NoDup packageNames →
  fetchNpmMetadata packageNames net schedule = Some result →
  (∀ i packageName,
     packageNames !! i = Some packageName →
     result !! packageName
     = recommended packageName <$> settledRecord net i packageName)
  ∧ (∀ packageName, packageName ∉ packageNames → result !! packageName = None)
  ∧ own result !! protoName = None
  ∧ (∀ schedule' result',
       fetchNpmMetadata packageNames net schedule' = Some result' →
       result' = result).
Proof.
  intros Hnodup H.
  assert (∀ schedule result,
            fetchNpmMetadata packageNames net schedule = Some result →
            ∀ p, result !! p
                 = match list_find (λ q, q = p) packageNames with
                   | Some (i, _) => recommended p <$> settledRecord net i p
                   | None => None
                   end) as Hkey.
  { clear schedule result H. intros schedule result H p.
    destruct (list_find (λ q, q = p) packageNames) as [[i q]|] eqn:E.
    - apply list_find_Some in E as (Hi & -> & _).
      eapply fetch_lookup; [done|by apply NoDup_only|done].
    - apply list_find_None in E.
      assert (p ∉ packageNames) as Hout.
      { intros Hin. by apply (proj1 (Forall_forall _ _) E p Hin). }
      unfold fetchNpmMetadata in H.
      destruct (allSettled _); [|done]. injection H as <-.
      rewrite recommend_lookup.
      by rewrite absent_run. }
  split_and!.
  - intros i p Hi. eapply fetch_lookup; [done|by apply NoDup_only|done].
  - intros p Hout. rewrite (Hkey _ _ H).
    destruct (list_find (λ q, q = p) packageNames) as [[i q]|] eqn:E; [|done].
    apply list_find_Some in E as (Hi & -> & _).
    destruct Hout. by eapply list_elem_of_lookup_2.
  - by eapply own_protoName_result.
  - intros schedule' result' H'. apply table_eq.
    + by eapply own_protoName_result.
    + by eapply own_protoName_result.
    + intros p. by rewrite (Hkey _ _ H), (Hkey _ _ H').
Qed.

(** X22.  A package whose registry request answers 200 with a body gets
    the fetched record, without error, whatever happens to the request
    for its download counts: weeklyDownloads is the count stored by that
    request, and 0 when it throws, answers another status or answers
    without a body.  The record is what the table read at the name
    gives: the own property, or the prototype for the name __proto__. *)
Theorem downloads_failure_absorbed packageNames net schedule result i
    packageName body :
  NoDup packageNames →
  packageNames !! i = Some packageName →
  answered net i = Some body →
  fetchNpmMetadata packageNames net schedule = Some result →
  ∃ r, result !! packageName = Some r
       ∧ (packageName ≠ protoName → own result !! packageName = Some r)
       ∧ name r = packageName
       ∧ version r = orElse (distTagsLatest body) []
       ∧ error r = None
       ∧ weeklyDownloads r = Some (default 0%nat (countedDownloads net i))
       ∧ alternatives r = Some (alternativesFor packageName).
Proof.
  intros Hnodup Hi Hbody H.
  pose proof (fetch_lookup packageNames net i packageName Hi
                (NoDup_only _ _ _ Hnodup Hi) schedule result H) as Hr.
  unfold settledRecord in Hr. unfold answered in Hbody.
  destruct (registry net i) as [r|e]; [|done].
  destruct (decide (status r = _)); [|done].
  destruct (data r) as [| |body']; try done. injection Hbody as ->.
  eexists. split; [exact Hr|].
  split.
  { intros Hne. by rewrite lookup_table, decide_False in Hr. }
  unfold recommended.
  destruct (decide (packageName = protoName)) as [->|];
    by destruct (countedDownloads net i).
Qed.

(** X23.  A package whose registry request returns, without throwing, a
    status other than 200 gets no record at all in the table. *)
Theorem other_status_leaves_no_record packageNames net schedule result i
    packageName r :
  NoDup packageNames →
  packageNames !! i = Some packageName →
  registry net i = Returned r → status r ≠ 200%nat →
  fetchNpmMetadata packageNames net schedule = Some result →
  result !! packageName = None.
Proof.
  intros Hnodup Hi Hr Hstatus H.
  rewrite (fetch_lookup packageNames net i packageName Hi
             (NoDup_only _ _ _ Hnodup Hi) schedule result H).
  unfold settledRecord. rewrite Hr. by rewrite decide_False.
Qed.

(** X24.  The requests sent, at every point of every run: first the
    registry requests of all the names, in their order; then only
    requests for download counts, each for a name whose registry request
    answered 200 with a body. *)
Theorem requests_in_order packageNames net schedule :
  ∃ later,
    requests (run packageNames net schedule)
    = (RegistryRequest <$> packageNames) ++ later
    ∧ Forall (λ rq, ∃ j q, rq = DownloadsRequest q
                           ∧ packageNames !! j = Some q
                           ∧ is_Some (answered net j)) later.
Proof.
  unfold run.
  assert (∃ later,
            requests (start packageNames)
            = (RegistryRequest <$> packageNames) ++ later
            ∧ Forall (λ rq, ∃ j q, rq = DownloadsRequest q
                                   ∧ packageNames !! j = Some q
                                   ∧ is_Some (answered net j)) later) as H0.
  { exists []. simpl. by rewrite app_nil_r. }
  revert H0. generalize (start packageNames) as st. revert schedule.
  induction schedule as [|k schedule IH]; intros st Hst; simpl; [done|].
  apply IH. destruct Hst as (later & Hreq & Hlater). unfold resume.
  destruct (packageNames !! k) as [q|] eqn:Hk; [|by exists later].
  destruct (phases st !! k) as [[]|]; [| |by exists later..].
  - destruct (registry net k) as [r|e] eqn:Hr;
      [destruct (decide (status r = _)) as [Hs|];
       [destruct (data r) as [| |body] eqn:Hd|]|];
      try (by exists later).
    exists (later ++ [DownloadsRequest q]). simpl. rewrite Hreq, app_assoc.
    split; [done|]. apply Forall_app. split; [done|].
    constructor; [|done]. exists k, q. split_and!; try done.
    unfold answered. rewrite Hr, decide_True, Hd by done. by eexists.
  - destruct (downloads net k) as [r|e];
      [destruct (decide (status r = _)); [destruct (data r)|]|];
      by exists later.
Qed.

(** X25.  Without package names the fetch returns the empty table,
    whatever the schedule. *)
Theorem fetch_nothing net schedule :
  fetchNpmMetadata [] net schedule = Some ∅.
Proof.
  unfold fetchNpmMetadata, run.
  assert (∀ st, foldl (resume [] net) st schedule = st) as ->.
  { induction schedule as [|k schedule IH]; intros st; [done|].
    cbn [foldl]. rewrite IH. unfold resume. by rewrite lookup_nil. }
  change (Some (recommend (mkTable ∅ None)) = Some (mkTable ∅ None)).
  unfold recommend. cbn [own proto]. by rewrite map_imap_empty.
Qed.

End FetchResults.

Lemma usage_table_exact_witness :
  ∃ u, packageUsage twoFiles = Returned u
       ∧ size u = 2%nat
       ∧ u !! str "react" = Some (Usage.mk 1 [str "/p/a.ts"]).
Proof.
  destruct (packageUsage_lookup twoFiles) as (u & Hu & Hlook).
  { apply (bool_decide_unpack _). by vm_compute. }
  exists u. split; [done|].
  destruct (usage_table_exact twoFiles u Hu) as [Hsize _].
  split; [by rewrite Hsize|]. by rewrite Hlook.
Defined.

Lemma usage_table_throws_exactly_witness :
  extractImports (str "const c = require('constructor');")
    = [str "constructor"]
  ∧ ∃ e, packageUsage
           [(str "/p/a.js",
             extractImports (str "const c = require('constructor');"))]
         = Thrown e.
Proof.
  split; [by vm_compute|].
  apply usage_table_throws_exactly.
  eexists _, (str "constructor"). split_and!; [by left| |].
  - apply (bool_decide_unpack _). by vm_compute.
  - apply (bool_decide_unpack _). by vm_compute.
Defined.

Lemma sample_names_distinct : NoDup sampleNames.
Proof. apply (bool_decide_unpack _). by vm_compute. Qed.

Lemma proto_names_distinct : NoDup protoNames.
Proof. apply (bool_decide_unpack _). by vm_compute. Qed.

Lemma proto_fetch_completes :
  Fetch.fetchNpmMetadata protoNames protoNetwork protoSchedule
  = Some (Fetch.recommend
            (Fetch.packageData
               (Fetch.run protoNames protoNetwork protoSchedule))).
Proof.
  unfold Fetch.fetchNpmMetadata.
  assert (Fetch.allSettled (Fetch.run protoNames protoNetwork protoSchedule)
          = true) as -> by (vm_compute; reflexivity).
  reflexivity.
Defined.

Lemma fetch_result_determined_witness :
  Fetch.fetchNpmMetadata sampleNames sampleNetwork [0; 1; 2; 0; 1; 2]%nat
  = Fetch.fetchNpmMetadata sampleNames sampleNetwork sampleSchedule
  ∧ ∃ result,
      Fetch.fetchNpmMetadata protoNames protoNetwork protoSchedule
        = Some result
      ∧ result !! Fetch.protoName
        = Some (Fetch.degraded Fetch.protoName notFound)
      ∧ Fetch.own result !! Fetch.protoName = None.
Proof.
  split.
  - assert (Fetch.fetchNpmMetadata sampleNames sampleNetwork
              [0; 1; 2; 0; 1; 2]%nat
            = Some (Fetch.recommend
                      (Fetch.packageData
                         (Fetch.run sampleNames sampleNetwork
                            [0; 1; 2; 0; 1; 2]%nat)))) as E.
    { unfold Fetch.fetchNpmMetadata.
      assert (Fetch.allSettled
                (Fetch.run sampleNames sampleNetwork [0; 1; 2; 0; 1; 2]%nat)
              = true) as -> by (vm_compute; reflexivity).
      reflexivity. }
    destruct (FetchResults.fetch_result_determined sampleNames sampleNetwork
                sampleSchedule _ sample_names_distinct sample_fetch_completes)
      as (_ & _ & _ & Hsame).
    rewrite E, sample_fetch_completes.
    exact (f_equal Some (Hsame _ _ E)).
  - destruct (FetchResults.fetch_result_determined protoNames protoNetwork
                protoSchedule _ proto_names_distinct proto_fetch_completes)
      as (Hread & _ & Hown & _).
    eexists. split; [exact proto_fetch_completes|].
    split; [|exact Hown].
    exact (Hread 1%nat Fetch.protoName eq_refl).
Defined.

Lemma downloads_failure_absorbed_witness :
  ∃ result r,
    Fetch.fetchNpmMetadata sampleNames sampleNetwork sampleSchedule
      = Some result
    ∧ result !! str "left-pad" = Some r
    ∧ Fetch.error r = None
    ∧ Fetch.weeklyDownloads r = Some 0%nat.
Proof.
  destruct (FetchResults.downloads_failure_absorbed sampleNames sampleNetwork
              sampleSchedule _ 1 (str "left-pad") (sampleBody "1.3.0")
              sample_names_distinct eq_refl eq_refl sample_fetch_completes)
    as (r & Hr & _ & _ & _ & Herr & Hweek & _).
  eexists _, r. split; [exact sample_fetch_completes|].
  split_and!; [exact Hr|exact Herr|exact Hweek].
Defined.

Lemma other_status_leaves_no_record_witness :
  ∃ result,
    Fetch.fetchNpmMetadata [str "left-pad"] noContentNetwork [0%nat]
      = Some result
    ∧ result !! str "left-pad" = None.
Proof.
  assert (Fetch.fetchNpmMetadata [str "left-pad"] noContentNetwork [0%nat]
          = Some (Fetch.recommend
                    (Fetch.packageData
                       (Fetch.run [str "left-pad"] noContentNetwork
                          [0%nat])))) as E by reflexivity.
  eexists. split; [exact E|].
  apply (FetchResults.other_status_leaves_no_record [str "left-pad"]
           noContentNetwork [0%nat] _ 0 (str "left-pad")
           (Fetch.mkResponse 204 Fetch.Undefined)); try done.
  apply NoDup_singleton.
Defined.

